(** * A shallow embedding of the todo service worker (sw.js)

    The worker intercepts the requests of a small task-list application and
    answers them from an IndexedDB object store and a versioned asset cache.
    This development embeds the worker's functions as Rocq definitions and
    proves (or refutes) the properties its specification states about them.

    Layout: the JavaScript values the worker handles, then its functions in
    the order of the source file, then the theorems. *)

From Stdlib Require Import Ascii String List Bool Arith Lia Sorted.
From stdpp Require Import base option gmap strings.

Local Open Scope string_scope.

(** ** JavaScript strings

    A string is a sequence of code units.  Every character the worker looks
    at (the marker, the characters of the escape table) is ASCII, so the
    code units are modelled as [ascii]. *)

Module Js.

(** The line feed and the double quote, which a literal cannot hold here. *)
Definition LF : string := String (ascii_of_nat 10) EmptyString.
Definition DQ : string := String (ascii_of_nat 34) EmptyString.

(** [undefined] is rendered as the word when a template literal or
    [String.prototype.replace] turns it into text. *)
Definition ToString (v : option string) : string :=
  match v with
  | Some s => s
  | None => "undefined"
  end.

(** [a.join("")] on an array of strings. *)
Fixpoint join (parts : list string) : string :=
  match parts with
  | [] => EmptyString
  | p :: rest => p +:+ join rest
  end.

(** Does [c] belong to the bracket expression [cls] of a regular
    expression? *)
Definition in_class (cls : list ascii) (c : ascii) : bool :=
  existsb (Ascii.eqb c) cls.

(** [s.replace(/[cls]/g, f)]: every code unit of the class is a match of
    length one; the callback receives the matched text and its result,
    converted to a string, takes the match's place. *)
Fixpoint replace_class (cls : list ascii) (f : string -> option string)
    (s : string) : string :=
  match s with
  | EmptyString => EmptyString
  | String c rest =>
      (if in_class cls c then ToString (f (String c EmptyString))
       else String c EmptyString)
      +:+ replace_class cls f rest
  end.

(** [s.split(sep)] for a non-empty separator.  The scan goes left to
    right; at a match the current piece is closed and the separator's
    remaining [String.length sep - 1] code units are skipped.  [skip]
    counts the code units still to be skipped. *)
Fixpoint split_from (sep : string) (skip : nat) (s : string) : list string :=
  match s with
  | EmptyString => [EmptyString]
  | String c rest =>
      match skip with
      | S k => split_from sep k rest
      | O =>
          if String.prefix sep s
          then EmptyString :: split_from sep (String.length sep - 1) rest
          else match split_from sep 0 rest with
               | piece :: pieces => String c piece :: pieces
               | [] => [String c EmptyString]
               end
      end
  end.

Definition split (sep s : string) : list string := split_from sep 0 s.

(** Property lookup [obj[key]] on an object literal whose values are
    strings: [undefined] when the object has no such property. *)
Fixpoint get_property (obj : list (string * string)) (key : string)
    : option string :=
  match obj with
  | [] => None
  | (k, v) :: rest => if String.eqb k key then Some v else get_property rest key
  end.

End Js.

(** ** The escape table and [escapeHtml] (sw.js, lines 226 to 244) *)

Definition ENTITY_MAP : list (string * string) :=
  [ ("&", "&amp;");
    ("<", "&lt;");
    (">", "&gt;");
    (Js.DQ, "&quot;");
    ("'", "&#39;");
    ("/", "&#x2F;");
    ("`", "&#x60;");
    ("=", "&#x3D;") ].

(** The bracket expression of the regular expression in [escapeHtml]. *)
Definition escape_class : list ascii :=
  [ "&"; "<"; ">"; ascii_of_nat 34; "'"; "`"; "="; "/" ]%char.

Definition escapeHtml (unsafe : string) : string :=
  Js.replace_class escape_class (Js.get_property ENTITY_MAP) unsafe.

(** *** What the specification says about escaping

    The specification's fixed set and, for each of its characters, the
    reference the table is expected to give. *)

Definition html_significant : list ascii :=
  [ "&"; "<"; ">"; ascii_of_nat 34; "'"; "/"; "`"; "=" ]%char.

(** Decoding of a character reference, after the HTML syntax: an ampersand,
    then a name, or a hash and decimal digits, or a hash, an x and
    hexadecimal digits, then a semicolon. *)
Definition named_reference (name : string) : option ascii :=
  if String.eqb name "amp" then Some "&"%char
  else if String.eqb name "lt" then Some "<"%char
  else if String.eqb name "gt" then Some ">"%char
  else if String.eqb name "quot" then Some (ascii_of_nat 34)
  else None.

Definition digit_value (base : nat) (c : ascii) : option nat :=
  let n := nat_of_ascii c in
  let v :=
    if (48 <=? n)%nat && (n <=? 57)%nat then Some (n - 48)
    else if (65 <=? n)%nat && (n <=? 70)%nat then Some (n - 55)
    else if (97 <=? n)%nat && (n <=? 102)%nat then Some (n - 87)
    else None in
  match v with
  | Some d => if (d <? base)%nat then Some d else None
  | None => None
  end.

Fixpoint number_value (base : nat) (acc : nat) (digits : string) : option nat :=
  match digits with
  | EmptyString => Some acc
  | String c rest =>
      match digit_value base c with
      | Some d => number_value base (base * acc + d) rest
      | None => None
      end
  end.

Fixpoint chop_semicolon (s : string) : option string :=
  match s with
  | EmptyString => None
  | String c rest =>
      match rest with
      | EmptyString => if Ascii.eqb c ";" then Some EmptyString else None
      | _ => option_map (String c) (chop_semicolon rest)
      end
  end.

Definition numeric_reference (base : nat) (digits : string) : option ascii :=
  match digits with
  | EmptyString => None
  | _ =>
      match number_value base 0 digits with
      | Some n => if (n <? 256)%nat then Some (ascii_of_nat n) else None
      | None => None
      end
  end.

Definition reference_target (ref : string) : option ascii :=
  match ref with
  | String "&" body =>
      match chop_semicolon body with
      | Some (String "#" (String "x" digits)) => numeric_reference 16 digits
      | Some (String "#" digits) => numeric_reference 10 digits
      | Some name => named_reference name
      | None => None
      end
  | _ => None
  end.

(** A string none of whose code units satisfies [p]. *)
Fixpoint string_forallb (p : ascii -> bool) (s : string) : bool :=
  match s with
  | EmptyString => true
  | String c rest => p c && string_forallb p rest
  end.

Definition plain_text (s : string) : bool :=
  string_forallb (fun c => negb (Js.in_class html_significant c)) s.

Definition over_significant (s : string) : bool :=
  string_forallb (Js.in_class html_significant) s.

(** ** JavaScript values and objects

    The values the worker stores and renders are todo objects: records whose
    properties hold strings and booleans.  A property that is missing reads
    as [undefined].  An object is a finite map from property names to
    primitive values; the object store and the [get] request may also
    produce [undefined] itself. *)

Inductive prim : Type :=
| PUndefined
| PBool (b : bool)
| PStr (s : string).

Inductive value : Type :=
| VUndefined
| VObj (o : gmap string prim).

(** [o.name], or the binding [name] of the pattern [{ name }]. *)
Definition prop (o : gmap string prim) (name : string) : prim :=
  default PUndefined (o !! name).

(** A value inside the braces of a template literal. *)
Definition prim_to_string (p : prim) : string :=
  match p with
  | PUndefined => Js.ToString None
  | PBool true => "true"
  | PBool false => "false"
  | PStr s => s
  end.

(** The test of a conditional expression. *)
Definition truthy (p : prim) : bool :=
  match p with
  | PUndefined => false
  | PBool b => b
  | PStr s => negb (String.eqb s EmptyString)
  end.

(** The own enumerable properties that the spread [...v] copies into an
    object literal: those of an object, none of [undefined]. *)
Definition own_properties (v : value) : gmap string prim :=
  match v with
  | VUndefined => ∅
  | VObj o => o
  end.

(** ** TodoDomain (sw.js, lines 116 to 148) *)

(** [createTodo(title)].  The identifier comes from
    [self.crypto.randomUUID()], which the host provides; it is the
    argument [id] here. *)
Definition createTodo (id : string) (title : prim) : string * value :=
  (id,
   VObj (<["completed" := PBool false]>
           (<["title" := title]> (<["id" := PStr id]> ∅)))).

(** [completeTodo(todo)]: the properties of the object literal
    [{ ...todo, completed: true }]. *)
Definition completeTodo (todo : value) : value :=
  VObj (<["completed" := PBool true]> (own_properties todo)).

(** An object literal is a new object: it is allocated at an address no
    live object has, and evaluating it writes to no other address.  The
    heap maps addresses to the properties of the object that lives there. *)
Abbreviation heap := (gmap nat (gmap string prim)).

Definition deref (h : heap) (r : nat) : value :=
  match h !! r with
  | Some o => VObj o
  | None => VUndefined
  end.

Definition alloc (h : heap) (v : value) : nat * heap :=
  let r := fresh (dom h) in
  (r, <[r := own_properties v]> h).

(** [completeTodo] on a reference to a todo object. *)
Definition completeTodo_ref (todo : nat) (h : heap) : nat * heap :=
  alloc h (completeTodo (deref h todo)).

(** ** ContentAssembler (sw.js, lines 182 to 224) *)

Definition list_item (id title completed : prim) : string :=
  Js.LF +:+ "    <li>" +:+ Js.LF +:+ "      " +:+
  (if truthy completed
   then "<s>" +:+ prim_to_string title +:+ "</s> <a href=" +:+ Js.DQ +:+
        "/delete?id=" +:+ prim_to_string id +:+ Js.DQ +:+ ">Delete</a>"
   else "<a href=" +:+ Js.DQ +:+ "/complete?id=" +:+ prim_to_string id +:+
        Js.DQ +:+ ">Complete</a> " +:+ prim_to_string title +:+
        " <a href=" +:+ Js.DQ +:+ "/delete?id=" +:+ prim_to_string id +:+
        Js.DQ +:+ ">Delete</a>") +:+
  Js.LF +:+ "    </li>" +:+ Js.LF +:+ "  ".

Definition generateTodos (data : list (gmap string prim)) : string :=
  Js.LF +:+ "    <ul slot=" +:+ Js.DQ +:+ "todo-list" +:+ Js.DQ +:+ ">" +:+
  Js.LF +:+ "      " +:+
  Js.join
    (map (fun o => list_item (prop o "id") (prop o "title") (prop o "completed"))
         data) +:+
  Js.LF +:+ "    </ul>" +:+ Js.LF +:+ "  ".

Definition lazyBoundary : string := "<!-- lazy -->".

(** [spliceResponseWithData(cachedContent, data)].  [data] is [None] when
    the argument is absent ([undefined] or [null]); an array, even an empty
    one, is truthy.  The pattern [[head, tail]] binds the first two pieces
    of the split, and [tail] is [undefined] when there is only one. *)
Definition spliceResponseWithData (cachedContent : string)
    (data : option (list (gmap string prim))) : string :=
  match data with
  | None => cachedContent
  | Some items =>
      let pieces := Js.split lazyBoundary cachedContent in
      let head := nth_error pieces 0 in
      let tail := nth_error pieces 1 in
      Js.LF +:+ "    " +:+ Js.ToString head +:+
      Js.LF +:+ "    " +:+ generateTodos items +:+
      Js.LF +:+ "    " +:+ Js.ToString tail +:+
      Js.LF +:+ "  "
  end.

(** ** Promises, errors and the host

    An asynchronous function is modelled by the outcome its promise settles
    with, together with the state it leaves behind. *)

Inductive error : Type :=
| TypeError (msg : string)
| RangeError (msg : string)
| DataError                      (* IndexedDB: the argument is not a valid key *)
| ReadOnlyError                  (* IndexedDB: a write in a read-only transaction *)
| DOMException (name : string)   (* a storage fault: quota, corruption, abort *)
| NetworkError                   (* [fetch] rejected *)
| Thrown (payload : string).     (* a value thrown by a caller's function *)

Inductive settled (A : Type) : Type :=
| Fulfilled (a : A)
| Rejected (reason : error).
Arguments Fulfilled {A} a.
Arguments Rejected {A} reason.

(** A function that may throw. *)
Inductive completion (A : Type) : Type :=
| Normal (a : A)
| Throw (reason : error).
Arguments Normal {A} a.
Arguments Throw {A} reason.

Record Response : Type := mkResponse {
  status : nat;
  statusText : string;
  headers : list (string * string);
  body : string
}.

(** A request: its method and URL (its identity in a cache), the path and
    the query parameters that [new URL(request.url)] exposes, and the text
    of its body. *)
Record Request : Type := mkRequest {
  method : string;
  url : string;
  pathname : string;
  searchParams : list (string * string);
  text : string
}.

(** What the host environment supplies to one run of the worker's code. *)
Record Host : Type := mkHost {
  (** [indexedDB.open] fails with this error, if any. *)
  open_fault : option error;
  (** A read-write transaction aborts with this error, if any, instead of
      completing. *)
  commit_fault : option error;
  (** The network: [None] when [fetch] rejects. *)
  network : string * string -> option Response;
  (** [new URLSearchParams(text)], as the sequence of its name and value
      pairs. *)
  URLSearchParams : string -> list (string * string);
  (** The next result of [self.crypto.randomUUID()]. *)
  randomUUID : string
}.

(** ** TransactionalStore (sw.js, lines 55 to 114) *)

(** A key given to IndexedDB: a string, or [null], which is not a valid
    key. *)
Inductive jskey : Type :=
| KNull
| KStr (k : string).

Inductive transactionMode : Type := readonly | readwrite.

(** The object store as seen inside one transaction: the contents when the
    transaction began and the contents with the transaction's own writes. *)
Record transaction : Type := mkTransaction {
  mode : transactionMode;
  committed : gmap string value;
  working : gmap string value
}.

Definition begin (m : transactionMode) (db : gmap string value) : transaction :=
  mkTransaction m db db.

(** [store.get(key)]: the request's [result]. *)
Definition store_get (key : jskey) (t : transaction) : completion value :=
  match key with
  | KNull => Throw DataError
  | KStr k => Normal (default VUndefined (working t !! k))
  end.

(** [store.put(value, key)]. *)
Definition store_put (v : value) (key : jskey) (t : transaction)
    : completion transaction :=
  match mode t, key with
  | readonly, _ => Throw ReadOnlyError
  | readwrite, KNull => Throw DataError
  | readwrite, KStr k =>
      Normal (mkTransaction (mode t) (committed t) (<[k := v]> (working t)))
  end.

(** [store.delete(key)]. *)
Definition store_delete (key : jskey) (t : transaction)
    : completion transaction :=
  match mode t, key with
  | readonly, _ => Throw ReadOnlyError
  | readwrite, KNull => Throw DataError
  | readwrite, KStr k =>
      Normal (mkTransaction (mode t) (committed t) (delete k (working t)))
  end.

(** [promisifyRequest(store.transaction)]: fulfilled on [oncomplete],
    rejected on [onabort] or [onerror]. *)
Definition promisifyTransaction (host : Host) (t : transaction) : settled unit :=
  match commit_fault host with
  | None => Fulfilled tt
  | Some e => Rejected e
  end.

(** The contents of the object store once the transaction is over: its
    writes when it completes, the earlier contents when it aborts. *)
Definition finish (host : Host) (t : transaction) : gmap string value :=
  match commit_fault host with
  | None => working t
  | Some _ => committed t
  end.

(** The function that [createStore] returns: once the database is open,
    [fn] runs on the object store of a new transaction. *)
Definition customStore {A : Type} (host : Host) (m : transactionMode)
    (fn : transaction -> settled A * transaction) (db : gmap string value)
    : settled A * gmap string value :=
  match open_fault host with
  | Some e => (Rejected e, db)
  | None => let '(r, t) := fn (begin m db) in (r, finish host t)
  end.

Definition set (host : Host) (key : jskey) (v : value) (db : gmap string value)
    : settled unit * gmap string value :=
  customStore host readwrite
    (fun store =>
       match store_put v key store with
       | Throw e => (Rejected e, store)
       | Normal store' => (promisifyTransaction host store', store')
       end) db.

Definition get (host : Host) (key : jskey) (db : gmap string value)
    : settled value * gmap string value :=
  customStore host readonly
    (fun store =>
       match store_get key store with
       | Throw e => (Rejected e, store)
       | Normal result => (Fulfilled result, store)
       end) db.

(** [update(key, updater)]: in the [onsuccess] handler of the [get]
    request, [updater] and [put] run inside [try]; whatever they throw
    rejects the promise. *)
Definition update (host : Host) (key : jskey)
    (updater : value -> completion value) (db : gmap string value)
    : settled unit * gmap string value :=
  customStore host readwrite
    (fun store =>
       match store_get key store with
       | Throw e => (Rejected e, store)
       | Normal result =>
           match updater result with
           | Throw err => (Rejected err, store)
           | Normal v =>
               match store_put v key store with
               | Throw err => (Rejected err, store)
               | Normal store' => (promisifyTransaction host store', store')
               end
           end
       end) db.

Definition del (host : Host) (key : jskey) (db : gmap string value)
    : settled unit * gmap string value :=
  customStore host readwrite
    (fun store =>
       match store_delete key store with
       | Throw e => (Rejected e, store)
       | Normal store' => (promisifyTransaction host store', store')
       end) db.

(** [entries()]: the keys and the values, both in ascending key order,
    zipped by position. *)
Fixpoint insert_by_key (e : string * value) (l : list (string * value))
    : list (string * value) :=
  match l with
  | [] => [e]
  | e' :: rest =>
      if String.leb (fst e) (fst e') then e :: l
      else e' :: insert_by_key e rest
  end.

Definition in_key_order (m : gmap string value) : list (string * value) :=
  foldr insert_by_key [] (map_to_list m).

Definition entries (host : Host) (db : gmap string value)
    : settled (list (string * value)) * gmap string value :=
  customStore host readonly
    (fun store =>
       let keys := map fst (in_key_order (working store)) in
       let values := map snd (in_key_order (working store)) in
       (Fulfilled
          (imap (fun idx key => (key, default VUndefined (values !! idx))) keys),
        store)) db.

(** ** VersionedAssetCache (sw.js, lines 1 to 53 and 150 to 160)

    The cache storage is the sequence of its named caches in creation
    order, the order in which [caches.keys()] lists them and
    [caches.match] searches them.  A cache maps the identity of a request,
    its method and URL, to a response. *)

Definition VERSION : string := "0.0.1".
Definition STATIC_CACHE_NAME : string := "static-cache_" +:+ VERSION.

Definition assets : list string := [ "/"; "/index.html"; "/main.js" ].

Definition identity (r : Request) : string * string := (method r, url r).

(** The request that a bare URL string stands for. *)
Definition GET (u : string) : string * string := ("GET", u).

Fixpoint caches_match (cs : list (string * gmap (string * string) Response))
    (k : string * string) : option Response :=
  match cs with
  | [] => None
  | (_, c) :: rest =>
      match c !! k with
      | Some r => Some r
      | None => caches_match rest k
      end
  end.

Definition caches_keys (cs : list (string * gmap (string * string) Response))
    : list string :=
  map fst cs.

Fixpoint caches_delete (name : string)
    (cs : list (string * gmap (string * string) Response))
    : list (string * gmap (string * string) Response) :=
  match cs with
  | [] => []
  | (n, c) :: rest =>
      if String.eqb n name then caches_delete name rest
      else (n, c) :: caches_delete name rest
  end.

(** [caches.open(name)] creates the cache when there is none of that
    name. *)
Fixpoint caches_open (name : string)
    (cs : list (string * gmap (string * string) Response))
    : list (string * gmap (string * string) Response) :=
  match cs with
  | [] => [(name, ∅)]
  | (n, c) :: rest =>
      if String.eqb n name then cs else (n, c) :: caches_open name rest
  end.

(** Header names are compared without regard to case. *)
Definition lower_ascii (c : ascii) : ascii :=
  let n := nat_of_ascii c in
  if (65 <=? n)%nat && (n <=? 90)%nat then ascii_of_nat (n + 32) else c.

Fixpoint lower (s : string) : string :=
  match s with
  | EmptyString => EmptyString
  | String c rest => String (lower_ascii c) (lower rest)
  end.

(** [headers.has(name)], for a [name] in lower case. *)
Definition has_header (name : string) (hs : list (string * string)) : bool :=
  existsb (fun h => String.eqb (lower (fst h)) name) hs.

(** The members of a comma-separated field value. *)
Fixpoint split_commas (s : string) : list string :=
  match s with
  | EmptyString => [EmptyString]
  | String c rest =>
      if Ascii.eqb c ","
      then EmptyString :: split_commas rest
      else match split_commas rest with
           | piece :: pieces => String c piece :: pieces
           | [] => [String c EmptyString]
           end
  end.

Fixpoint without_blanks (s : string) : string :=
  match s with
  | EmptyString => EmptyString
  | String c rest =>
      if Ascii.eqb c " " || Ascii.eqb c (ascii_of_nat 9)
      then without_blanks rest
      else String c (without_blanks rest)
  end.

(** A [Vary] header of the response lists [*]: some member of its value
    is the star, blanks around it apart. *)
Definition vary_star (hs : list (string * string)) : bool :=
  existsb
    (fun h =>
       String.eqb (lower (fst h)) "vary"
       && existsb (fun member => String.eqb (without_blanks member) "*")
            (split_commas (snd h)))
    hs.

(** The entry that a successful [cache.put] or [cache.addAll] leaves in
    the cache called [name]. *)
Fixpoint cache_store (name : string) (k : string * string) (r : Response)
    (cs : list (string * gmap (string * string) Response))
    : list (string * gmap (string * string) Response) :=
  match cs with
  | [] => []
  | (n, c) :: rest =>
      if String.eqb n name then (n, <[k := r]> c) :: rest
      else (n, c) :: cache_store name k r rest
  end.

(** [cache.put(request, response)] on the cache called [name].  The
    promise is rejected with a [TypeError], and nothing is stored, when
    the method of the request is not GET, when the status of the response
    is 206, or when the response varies on [*]. *)
Definition cache_put (name : string) (k : string * string) (r : Response)
    (cs : list (string * gmap (string * string) Response))
    : completion (list (string * gmap (string * string) Response)) :=
  if negb (String.eqb (fst k) "GET")
  then Throw (TypeError "Request method is unsupported")
  else if Nat.eqb (status r) 206
  then Throw (TypeError "Partial response (status code 206) is unsupported")
  else if vary_star (headers r)
  then Throw (TypeError "Vary header contains *")
  else Normal (cache_store name k r cs).

(** The cache called [name], if there is one. *)
Fixpoint generation (name : string)
    (cs : list (string * gmap (string * string) Response))
    : option (gmap (string * string) Response) :=
  match cs with
  | [] => None
  | (n, c) :: rest => if String.eqb n name then Some c else generation name rest
  end.

(** [response.clone()]: a response with the same contents. *)
Definition clone (r : Response) : Response :=
  mkResponse (status r) (statusText r) (headers r) (body r).

(** The state the worker acts on: the object store, the cache storage, the
    requests sent to the network so far (oldest first), and whether the
    worker has claimed the open clients. *)
Record World : Type := mkWorld {
  db : gmap string value;
  storage : list (string * gmap (string * string) Response);
  fetched : list (string * string);
  claimed : bool
}.

Definition with_db (w : World) (d : gmap string value) : World :=
  mkWorld d (storage w) (fetched w) (claimed w).

Definition with_storage (w : World)
    (cs : list (string * gmap (string * string) Response)) : World :=
  mkWorld (db w) cs (fetched w) (claimed w).

(** [fetch(request)]. *)
Definition fetch (host : Host) (k : string * string) (w : World)
    : settled Response * World :=
  let w' := mkWorld (db w) (storage w) (fetched w ++ [k])%list (claimed w) in
  match network host k with
  | Some r => (Fulfilled r, w')
  | None => (Rejected NetworkError, w')
  end.

(** [cache.addAll(urls)]: every URL is fetched; the responses are stored
    only if every fetch succeeded with an ok status. *)
Fixpoint fetch_all (host : Host) (urls : list string) (w : World)
    : list (string * settled Response) * World :=
  match urls with
  | [] => ([], w)
  | u :: rest =>
      let '(r, w1) := fetch host (GET u) w in
      let '(rs, w2) := fetch_all host rest w1 in
      ((u, r) :: rs, w2)
  end.

Definition ok (r : Response) : bool :=
  (200 <=? status r)%nat && (status r <=? 299)%nat.

(** [cache.addAll] takes a response that is ok, is not a partial
    response (status 206; 206 is within the ok range) and does not vary on
    [*]. *)
Definition addAll_accepts (r : Response) : bool :=
  ok r && negb (Nat.eqb (status r) 206) && negb (vary_star (headers r)).

Fixpoint all_ok (rs : list (string * settled Response))
    : option (list (string * Response)) :=
  match rs with
  | [] => Some []
  | (u, Fulfilled r) :: rest =>
      if addAll_accepts r then option_map (cons (u, r)) (all_ok rest) else None
  | (_, Rejected _) :: _ => None
  end.

Definition addAll (host : Host) (name : string) (urls : list string) (w : World)
    : settled unit * World :=
  let '(rs, w1) := fetch_all host urls w in
  match all_ok rs with
  | Some got =>
      (Fulfilled tt,
       with_storage w1
         (foldl (fun cs '(u, r) => cache_store name (GET u) r cs) (storage w1) got))
  | None => (Rejected (TypeError "Failed to fetch"), w1)
  end.

Definition cacheStatic (host : Host) (w : World) : settled unit * World :=
  let w1 := with_storage w (caches_open STATIC_CACHE_NAME (storage w)) in
  addAll host STATIC_CACHE_NAME assets w1.

Definition cleanCache (w : World) : settled unit * World :=
  let keys := caches_keys (storage w) in
  let stale :=
    List.filter (fun key => negb (String.eqb key STATIC_CACHE_NAME)) keys in
  (Fulfilled tt,
   with_storage w (foldl (fun cs key => caches_delete key cs) (storage w) stale)).

Definition clients_claim (w : World) : settled unit * World :=
  (Fulfilled tt, mkWorld (db w) (storage w) (fetched w) true).

(** [init()]; opening the database leaves the contents of the object
    store as they are. *)
Definition init (host : Host) (w : World) : settled unit * World :=
  match cacheStatic host w with
  | (Fulfilled _, w1) => (Fulfilled tt, w1)
  | (Rejected e, w1) => (Rejected e, w1)
  end.

(** *** The lifecycle listeners

    What a listener hands to [e.waitUntil]: either a promise, the result of
    a call that has already started the work, or a function object.
    [waitUntil] keeps the event alive until the promise settles; it calls
    nothing, and a value that is no promise counts as settled. *)
Inductive waitable : Type :=
| APromise (outcome : settled unit)
| AFunction (body : World -> settled unit * World).

Definition waitUntil (arg : waitable) (w : World) : World := w.

(** The install listener passes the promise of the call [init()]. *)
Definition install_listener (host : Host) (w : World) : World :=
  let '(p, w1) := init host w in
  waitUntil (APromise p) w1.

(** The activate listener passes the arrow function itself. *)
Definition activate_listener (w : World) : World :=
  waitUntil
    (AFunction
       (fun w0 =>
          match cleanCache w0 with
          | (Fulfilled _, w1) => clients_claim w1
          | (Rejected e, w1) => (Rejected e, w1)
          end))
    w.

(** [respondWithCache(request)].  The promise of [cache.put] is not
    awaited: when it is rejected, the fetched response is returned all the
    same and the cache, which [caches.open] has created by then, holds
    nothing new. *)
Definition respondWithCache (host : Host) (request : Request) (w : World)
    : settled Response * World :=
  match caches_match (storage w) (identity request) with
  | Some cacheRes => (Fulfilled cacheRes, w)
  | None =>
      match fetch host (identity request) w with
      | (Rejected e, w1) => (Rejected e, w1)
      | (Fulfilled fetchRes, w1) =>
          let cs := caches_open STATIC_CACHE_NAME (storage w1) in
          match cache_put STATIC_CACHE_NAME (identity request)
                  (clone fetchRes) cs with
          | Normal stored => (Fulfilled fetchRes, with_storage w1 stored)
          | Throw _ => (Fulfilled fetchRes, with_storage w1 cs)
          end
      end
  end.

(** ** RequestRouter (sw.js, lines 162 to 180 and 246 to 273) *)

(** The todo objects among the stored values; destructuring a value that
    is [undefined] throws. *)
Fixpoint todo_items (values : list value)
    : completion (list (gmap string prim)) :=
  match values with
  | [] => Normal []
  | VUndefined :: _ => Throw (TypeError "Cannot destructure undefined")
  | VObj o :: rest =>
      match todo_items rest with
      | Normal os => Normal (o :: os)
      | Throw e => Throw e
      end
  end.

(** The statuses of responses that have no body. *)
Definition null_body_status (code : nat) : bool :=
  existsb (Nat.eqb code) [101; 103; 204; 205; 304].

(** A status text is a reason phrase: tabs, spaces and visible or high
    characters only. *)
Definition reason_phrase (s : string) : bool :=
  string_forallb
    (fun c =>
       let n := nat_of_ascii c in
       Nat.eqb n 9 || ((32 <=? n)%nat && negb (Nat.eqb n 127)))
    s.

(** The media type that a body given as a string brings along. *)
Definition text_plain : string * string :=
  ("content-type", "text/plain;charset=UTF-8").

(** [new Response(body, { status, statusText, headers })] for a [body]
    that is a string.  The status must lie within 200 to 599, the status
    text must be a reason phrase, and a status of responses without a body
    takes no body.  The headers are those given; a [Content-Type] is added
    when they have none.  (Header lists are taken as the [Headers]
    interface shows them: by name, whatever the case.) *)
Definition new_Response (newBody : string) (code : nat) (reason : string)
    (hs : list (string * string)) : completion Response :=
  if negb ((200 <=? code)%nat && (code <=? 599)%nat)
  then Throw (RangeError "The status is outside the range 200 to 599")
  else if negb (reason_phrase reason)
  then Throw (TypeError "Invalid statusText")
  else if null_body_status code
  then Throw (TypeError "Response with null body status cannot have body")
  else Normal (mkResponse code reason
                 (if has_header "content-type" hs then hs
                  else (hs ++ [text_plain])%list)
                 newBody).

Definition respondWithSpliced (host : Host) (w : World)
    : settled Response * World :=
  match caches_match (storage w) (GET "/") with
  | None => (Rejected (TypeError "res is undefined"), w)
  | Some res =>
      let originalBody := body (clone res) in
      match entries host (db w) with
      | (Rejected e, d) => (Rejected e, with_db w d)
      | (Fulfilled allEntries, d) =>
          match todo_items (map snd allEntries) with
          | Throw e => (Rejected e, with_db w d)
          | Normal data =>
              let newBody := spliceResponseWithData originalBody (Some data) in
              match new_Response newBody (status res) (statusText res)
                      (headers res) with
              | Normal response => (Fulfilled response, with_db w d)
              | Throw e => (Rejected e, with_db w d)
              end
          end
      end
  end.

(** [Response.redirect(path, status)]. *)
Definition Response_redirect (path : string) (code : nat) : completion Response :=
  if existsb (Nat.eqb code) [301; 302; 303; 307; 308]
  then Normal (mkResponse code EmptyString [("Location", path)] EmptyString)
  else Throw (RangeError "Invalid status code").

Definition redirect (path : string) : settled Response :=
  match Response_redirect path 303 with
  | Normal r => Fulfilled r
  | Throw e => Rejected e
  end.

(** [url.searchParams.get(name)]: the first value of that name, or
    [null]. *)
Fixpoint searchParams_get (params : list (string * string)) (name : string)
    : jskey :=
  match params with
  | [] => KNull
  | (n, v) :: rest => if String.eqb n name then KStr v else searchParams_get rest name
  end.

(** The promise chain of the [/create] branch.  The first callback binds
    the first pair of the parameters (the pattern's name for it is
    [title]) and returns it, [undefined] when there is none; the second
    takes the second component of what it is given. *)
Definition create_chain (host : Host) (request : Request)
    (d : gmap string value) : settled unit * gmap string value :=
  let params := URLSearchParams host (text request) in
  let title := nth_error params 0 in
  match title with
  | None => (Rejected (TypeError "undefined is not iterable"), d)
  | Some (_, v) =>
      let '(id, todo) := createTodo (randomUUID host) (PStr (escapeHtml v)) in
      set host (KStr id) todo d
  end.

(** What one run of the fetch listener did with its event: the promise
    given to [e.waitUntil], the promise given to [e.respondWith] ([None]
    when the listener made no such call and the request is left to the
    browser), and the state afterwards. *)
Record handled : Type := mkHandled {
  waited : option (settled unit);
  responded : option (settled Response);
  after : World
}.

Definition fetch_listener (host : Host) (request : Request) (w : World)
    : handled :=
  let path := pathname request in
  if String.eqb path "/" || String.eqb path "/index.html" then
    let '(r, w1) := respondWithSpliced host w in
    mkHandled None (Some r) w1
  else if String.eqb path "/create" then
    let '(p, d) := create_chain host request (db w) in
    mkHandled (Some p) (Some (redirect "/")) (with_db w d)
  else if String.eqb path "/delete" then
    let id := searchParams_get (searchParams request) "id" in
    let '(p, d) := del host id (db w) in
    mkHandled (Some p) (Some (redirect "/")) (with_db w d)
  else if String.eqb path "/complete" then
    let id := searchParams_get (searchParams request) "id" in
    let '(p, d) := update host id (fun todo => Normal (completeTodo todo)) (db w) in
    mkHandled (Some p) (Some (redirect "/")) (with_db w d)
  else if existsb (String.eqb path) assets then
    let '(r, w1) := respondWithCache host request w in
    mkHandled None (Some r) w1
  else
    mkHandled None None w.

(** No code unit of [s] is one of the significant characters other than
    the ampersand, which every reference starts with. *)
Definition no_raw_markup (s : string) : bool :=
  string_forallb (fun c => negb (Js.in_class (List.tl html_significant) c)) s.

(** [s.includes(sep)]: [sep] occurs somewhere in [s]. *)
Fixpoint includes (sep s : string) : bool :=
  String.prefix sep s
  || match s with
     | EmptyString => false
     | String _ rest => includes sep rest
     end.

(** The text the template literal of [spliceResponseWithData] puts around
    its three holes. *)
Definition spliced (head list tail : string) : string :=
  Js.LF +:+ "    " +:+ head +:+ Js.LF +:+ "    " +:+ list +:+
  Js.LF +:+ "    " +:+ tail +:+ Js.LF +:+ "  ".

(** A todo as [createTodo] makes it, used in the examples. *)
Definition milk : gmap string prim :=
  own_properties (snd (createTodo "7f3c" (PStr "Buy milk"))).

(** The response of [redirect("/")]. *)
Definition see_other : Response :=
  mkResponse 303 EmptyString [("Location", "/")] EmptyString.

(** Hosts for the examples: one whose storage works and one whose
    read-write transactions abort for lack of quota.  Both are offline, and
    [params] is what [URLSearchParams] makes of a request body. *)
Definition healthy (params : list (string * string)) : Host :=
  mkHost None None (fun _ => None) (fun _ => params) "7f3c".

Definition out_of_quota (params : list (string * string)) : Host :=
  mkHost None (Some (DOMException "QuotaExceededError")) (fun _ => None)
    (fun _ => params) "7f3c".

(** A state in which one todo is stored and nothing is cached. *)
Definition one_todo : World :=
  mkWorld {["7f3c" := VObj milk]} [] [] false.

(** The paths whose handlers write to the object store. *)
Definition mutation_paths : list string := [ "/create"; "/delete"; "/complete" ].

(** A state in which nothing is stored and nothing is cached. *)
Definition blank : World := mkWorld ∅ [] [] false.

(** The script as an earlier deployment cached it and as the network
    serves it now. *)
Definition old_script : Response :=
  mkResponse 200 "OK" [] "console.log(1)".

Definition new_script : Response :=
  mkResponse 200 "OK" [] "console.log(2)".

(** A request for the script with a query string; its path is in the
    manifest. *)
Definition main_js : Request :=
  mkRequest "GET" "/main.js?v=1" "/main.js" [("v", "1")] EmptyString.

(** A host that is online and serves the new script for every request. *)
Definition online : Host :=
  mkHost None None (fun _ => Some new_script) (fun _ => []) "7f3c".

(** A cache storage with the generation of an earlier version, which
    holds the script, and an empty generation of the current version. *)
Definition two_generations : World :=
  mkWorld ∅
    [ ("static-cache_0.0.0", {[GET "/main.js?v=1" := old_script]});
      (STATIC_CACHE_NAME, ∅) ]
    [] false.

(** Two stored pairs are in key order. *)
Definition key_le (a b : string * value) : Prop :=
  String.leb (fst a) (fst b) = true.

(** A cached shell with one marker. *)
Definition shell : Response :=
  mkResponse 200 "OK" [("Content-Type", "text/html")]
    "<main><!-- lazy --></main>".

(** A state after installation: the shell is cached under the root and
    one todo is stored. *)
Definition installed : World :=
  mkWorld {["7f3c" := VObj milk]}
    [ (STATIC_CACHE_NAME, {[GET "/" := shell]}) ] [] false.

(** A string without a slash, as the identifiers of [randomUUID] are. *)
Definition slash_free (s : string) : bool :=
  string_forallb (fun c => negb (Ascii.eqb c "/")) s.

(** The global variable [store] of the worker and the connections opened
    so far (sw.js, lines 5 to 12).  A handle made by [createStore] is
    identified by the number of the [indexedDB.open] call that made it. *)
Record globals : Type := mkGlobals {
  store : option nat;
  opened : nat
}.

Definition createStore (g : globals) : nat * globals :=
  (opened g, mkGlobals (store g) (S (opened g))).

Definition defaultGetStore (g : globals) : nat * globals :=
  match store g with
  | Some handle => (handle, g)
  | None =>
      let '(handle, g1) := createStore g in
      (handle, mkGlobals (Some handle) (opened g1))
  end.

(** The handles that [n] calls of [defaultGetStore] in a row return, and
    the globals after the last one. *)
Fixpoint defaultGetStore_calls (n : nat) (g : globals) : list nat * globals :=
  match n with
  | O => ([], g)
  | S m =>
      let '(handle, g1) := defaultGetStore g in
      let '(handles, g2) := defaultGetStore_calls m g1 in
      (handle :: handles, g2)
  end.


(** The same shell as a server without headers and status text would
    send it, cached in a state with no todo. *)
Definition bare_shell : Response :=
  mkResponse 200 EmptyString [] "<main><!-- lazy --></main>".

Definition bare_install : World :=
  mkWorld ∅ [ (STATIC_CACHE_NAME, {[GET "/" := bare_shell]}) ] [] false.

(** The number of places of [s] at which [p] occurs. *)
Fixpoint occurrences (p s : string) : nat :=
  (if String.prefix p s then 1 else 0)
  + match s with
    | EmptyString => 0
    | String _ rest => occurrences p rest
    end.

(** * Theorems *)

(** ** Strings *)

(** [simpl] is to unfold an append whose first argument starts with a
    constructor. *)
#[local] Arguments String.append !s1 s2 : simpl nomatch.

Lemma append_empty_r (s : string) : s +:+ EmptyString = s.
Proof. induction s as [|c s IH]; simpl; [reflexivity | now rewrite IH]. Qed.

Lemma append_assoc (a b c : string) : (a +:+ b) +:+ c = a +:+ (b +:+ c).
Proof. induction a as [|x a IH]; simpl; [reflexivity | now rewrite IH]. Qed.

Lemma append_inv_head (a x y : string) : a +:+ x = a +:+ y -> x = y.
Proof.
  induction a as [|c a IH]; simpl; intros H; [exact H|].
  injection H as H. now apply IH.
Qed.

Lemma string_forallb_app (p : ascii -> bool) (a b : string) :
  string_forallb p (a +:+ b) = string_forallb p a && string_forallb p b.
Proof.
  induction a as [|c a IH]; simpl; [reflexivity|].
  now rewrite IH, andb_assoc.
Qed.

(** ** ContentAssembler: escaping *)

Section Escaping.

Lemma class_agrees (c : ascii) :
  Js.in_class escape_class c = Js.in_class html_significant c.
Proof. destruct c as [[] [] [] [] [] [] [] []]; reflexivity. Qed.

Lemma escapeHtml_cons (c : ascii) (s : string) :
  escapeHtml (String c s) = escapeHtml (String c EmptyString) +:+ escapeHtml s.
Proof.
  unfold escapeHtml; simpl.
  now rewrite append_empty_r.
Qed.

Lemma escapeHtml_app (s1 s2 : string) :
  escapeHtml (s1 +:+ s2) = escapeHtml s1 +:+ escapeHtml s2.
Proof.
  induction s1 as [|c s1 IH]; [reflexivity|].
  simpl String.append.
  rewrite (escapeHtml_cons c (s1 +:+ s2)), (escapeHtml_cons c s1), IH.
  now rewrite append_assoc.
Qed.

Lemma escapeHtml_plain_char (c : ascii) :
  Js.in_class html_significant c = false ->
  escapeHtml (String c EmptyString) = String c EmptyString.
Proof.
  intros H. rewrite <- class_agrees in H.
  unfold escapeHtml, Js.replace_class. now rewrite H.
Qed.

Lemma significant_cases (c : ascii) :
  Js.in_class html_significant c = true -> In c html_significant.
Proof.
  unfold Js.in_class. intros H.
  apply existsb_exists in H as (x & Hin & Heq).
  apply Ascii.eqb_eq in Heq. now subst.
Qed.

Ltac each_significant H :=
  apply significant_cases in H; simpl in H;
  repeat (destruct H as [H | H]; [subst|]); try contradiction.

Lemma escapeHtml_reference (c : ascii) :
  Js.in_class html_significant c = true ->
  reference_target (escapeHtml (String c EmptyString)) = Some c
  /\ no_raw_markup (escapeHtml (String c EmptyString)) = true.
Proof. intros H. each_significant H; split; reflexivity. Qed.

(** The images of two code units never overlap at the front: the table's
    entries form a prefix code together with the plain characters. *)
Lemma escapeHtml_prefix_code (c1 c2 : ascii) (x y : string) :
  escapeHtml (String c1 EmptyString) +:+ x
  = escapeHtml (String c2 EmptyString) +:+ y ->
  c1 = c2 /\ x = y.
Proof.
  destruct (Js.in_class html_significant c1) eqn:H1;
    destruct (Js.in_class html_significant c2) eqn:H2.
  - each_significant H1; each_significant H2;
      vm_compute; intros H; first [discriminate H | injection H as H; auto].
  - rewrite (escapeHtml_plain_char c2 H2).
    each_significant H1; vm_compute; intros H; injection H as Hc _;
      subst c2; discriminate H2.
  - rewrite (escapeHtml_plain_char c1 H1).
    each_significant H2; vm_compute; intros H; injection H as Hc _;
      subst c1; discriminate H1.
  - rewrite (escapeHtml_plain_char c1 H1), (escapeHtml_plain_char c2 H2).
    simpl. intros H; injection H as -> ->. auto.
Qed.

Lemma escapeHtml_injective (s1 s2 : string) :
  escapeHtml s1 = escapeHtml s2 -> s1 = s2.
Proof.
  revert s2. induction s1 as [|c1 s1 IH]; intros [|c2 s2] H.
  - reflexivity.
  - exfalso. rewrite escapeHtml_cons in H.
    change (escapeHtml EmptyString) with EmptyString in H.
    destruct (Js.in_class html_significant c2) eqn:H2.
    + each_significant H2; vm_compute in H; discriminate H.
    + rewrite (escapeHtml_plain_char c2 H2) in H. discriminate H.
  - exfalso. rewrite escapeHtml_cons in H.
    change (escapeHtml EmptyString) with EmptyString in H.
    destruct (Js.in_class html_significant c1) eqn:H1.
    + each_significant H1; vm_compute in H; discriminate H.
    + rewrite (escapeHtml_plain_char c1 H1) in H. discriminate H.
  - rewrite (escapeHtml_cons c1), (escapeHtml_cons c2) in H.
    apply escapeHtml_prefix_code in H as [-> H].
    f_equal. now apply IH.
Qed.

Lemma escapeHtml_plain (s : string) :
  plain_text s = true -> escapeHtml s = s.
Proof.
  unfold plain_text.
  induction s as [|c s IH]; simpl; intros H; [reflexivity|].
  apply andb_true_iff in H as [Hc Hs].
  apply negb_true_iff in Hc.
  rewrite escapeHtml_cons, (escapeHtml_plain_char c Hc), (IH Hs).
  reflexivity.
Qed.

Lemma escapeHtml_no_raw_markup (s : string) :
  no_raw_markup (escapeHtml s) = true.
Proof.
  induction s as [|c s IH]; [reflexivity|].
  rewrite escapeHtml_cons. unfold no_raw_markup in *.
  rewrite string_forallb_app, IH, andb_true_r.
  destruct (Js.in_class html_significant c) eqn:Hc.
  - now apply escapeHtml_reference.
  - rewrite (escapeHtml_plain_char c Hc). simpl. rewrite andb_true_r.
    apply negb_true_iff.
    unfold Js.in_class in Hc |- *. simpl in Hc |- *.
    now apply orb_false_iff in Hc as [_ Hc].
Qed.

End Escaping.

(** C7.  [escapeHtml] works code unit by code unit; each of the eight
    characters of the fixed set is replaced, wherever it occurs, by a
    character reference that denotes it, so that none of them other than
    the ampersand of a reference is left in the result; a string with none
    of the eight characters is returned as it is; and two different
    strings (over the fixed set or not) never have the same escaped
    text. *)
Theorem escapeHtml_replaces_fixed_set :
  (forall s1 s2, escapeHtml (s1 +:+ s2) = escapeHtml s1 +:+ escapeHtml s2)
  /\ (forall c, Js.in_class html_significant c = true ->
        reference_target (escapeHtml (String c EmptyString)) = Some c)
  /\ (forall s, no_raw_markup (escapeHtml s) = true)
  /\ (forall s, plain_text s = true -> escapeHtml s = s)
  /\ (forall s1 s2, over_significant s1 = true -> over_significant s2 = true ->
        escapeHtml s1 = escapeHtml s2 -> s1 = s2)
  /\ (forall s1 s2, escapeHtml s1 = escapeHtml s2 -> s1 = s2).
Proof.
  split; [exact escapeHtml_app|].
  split; [intros c H; now apply escapeHtml_reference|].
  split; [exact escapeHtml_no_raw_markup|].
  split; [exact escapeHtml_plain|].
  split; [intros s1 s2 _ _; apply escapeHtml_injective|].
  exact escapeHtml_injective.
Qed.

Lemma escapeHtml_replaces_fixed_set_witness :
  reference_target (escapeHtml "/") = Some "/"%char
  /\ escapeHtml "Buy milk" = "Buy milk"
  /\ "<&" = "<&".
Proof.
  destruct escapeHtml_replaces_fixed_set as (_ & Href & _ & Hplain & Hinj & _).
  exact (conj (Href "/"%char eq_refl)
           (conj (Hplain "Buy milk" eq_refl)
              (Hinj "<&" "<&" eq_refl eq_refl eq_refl))).
Defined.

(** ** ContentAssembler: splitting at the marker *)

Section Splitting.

Lemma length_append (a b : string) :
  String.length (a +:+ b) = String.length a + String.length b.
Proof. induction a as [|c a IH]; simpl; [reflexivity | now rewrite IH]. Qed.

Lemma prefix_cons (a b : ascii) (p s : string) :
  String.prefix (String a p) (String b s) = true <->
  a = b /\ String.prefix p s = true.
Proof.
  simpl. destruct (ascii_dec a b) as [->|Hne]; split.
  - intros H; now split.
  - now intros [_ H].
  - discriminate.
  - intros [Heq _]; contradiction.
Qed.

Lemma prefix_append_self (p s : string) : String.prefix p (p +:+ s) = true.
Proof.
  induction p as [|c p IH]; [now destruct s|].
  change (String c p +:+ s) with (String c (p +:+ s)).
  now apply prefix_cons.
Qed.

(** A prefix of [h +:+ x] either ends inside [h] or runs over into [x]. *)
Lemma prefix_append_cases (p h x : string) :
  String.prefix p (h +:+ x) = true ->
  String.prefix p h = true
  \/ exists p2, p = h +:+ p2 /\ p2 <> EmptyString /\ String.prefix p2 x = true.
Proof.
  revert h. induction p as [|a p IH]; intros h H.
  - left. now destruct h.
  - destruct h as [|b h].
    + right. exists (String a p). repeat split; [discriminate | exact H].
    + change (String b h +:+ x) with (String b (h +:+ x)) in H.
      apply prefix_cons in H as [-> H].
      destruct (IH h H) as [Hp | (p2 & -> & Hne & Hp2)].
      * left. now apply prefix_cons.
      * right. exists p2. repeat split; assumption.
Qed.

Lemma includes_cons_false (sep : string) (c : ascii) (s : string) :
  includes sep (String c s) = false ->
  String.prefix sep (String c s) = false /\ includes sep s = false.
Proof. simpl includes. intros H. now apply orb_false_iff in H. Qed.

(** Without an occurrence of the separator the split has one piece. *)
Lemma split_without_separator (sep s : string) :
  includes sep s = false -> Js.split sep s = [s].
Proof.
  unfold Js.split. induction s as [|c s IH]; intros H; [reflexivity|].
  apply includes_cons_false in H as [Hp Hs].
  cbn [Js.split_from]. rewrite Hp, (IH Hs). reflexivity.
Qed.

Lemma split_from_skip (sep r s : string) :
  Js.split_from sep (String.length r) (r +:+ s) = Js.split_from sep 0 s.
Proof.
  induction r as [|c r IH]; [reflexivity|].
  simpl. destruct (r +:+ s) eqn:E; exact IH.
Qed.

(** The marker starts with a character that occurs nowhere else in it,
    so no occurrence of the marker can overlap another one. *)
Lemma marker_no_overlap (h p2 t : string) :
  lazyBoundary = h +:+ p2 -> h <> EmptyString -> p2 <> EmptyString ->
  String.prefix p2 (lazyBoundary +:+ t) = false.
Proof.
  intros E Hh Hp.
  destruct h as [|c h]; [contradiction|].
  destruct p2 as [|d p2]; [contradiction|].
  unfold lazyBoundary in *. simpl in E. injection E as _ E.
  change ("<!-- lazy -->" +:+ t) with (String "<" ("!-- lazy -->" +:+ t)).
  destruct (String.prefix (String d p2) (String "<" ("!-- lazy -->" +:+ t)))
    eqn:P; [exfalso | reflexivity].
  apply prefix_cons in P as [-> _].
  assert (F : string_forallb (fun c => negb (Ascii.eqb c "<")) "!-- lazy -->" = true)
    by reflexivity.
  rewrite E, string_forallb_app in F. simpl in F.
  now rewrite andb_false_r in F.
Qed.

Lemma marker_not_before (h t : string) :
  h <> EmptyString -> includes lazyBoundary h = false ->
  String.prefix lazyBoundary (h +:+ lazyBoundary +:+ t) = false.
Proof.
  intros Hh Hinc.
  destruct (String.prefix lazyBoundary (h +:+ lazyBoundary +:+ t)) eqn:P;
    [exfalso | reflexivity].
  apply prefix_append_cases in P as [P | (p2 & E & Hne & P)].
  - destruct h as [|c h]; [contradiction|].
    apply includes_cons_false in Hinc as [Hp _]. congruence.
  - rewrite (marker_no_overlap h p2 t E Hh Hne) in P. discriminate P.
Qed.

(** The split of a shell at the first marker. *)
Lemma split_at_marker (h t : string) :
  includes lazyBoundary h = false ->
  Js.split lazyBoundary (h +:+ lazyBoundary +:+ t)
  = h :: Js.split lazyBoundary t.
Proof.
  unfold Js.split. induction h as [|c h IH]; intros Hinc.
  - change (EmptyString +:+ lazyBoundary +:+ t)
      with (String "<" ("!-- lazy -->" +:+ t)).
    cbn [Js.split_from].
    replace (String.prefix lazyBoundary (String "<" ("!-- lazy -->" +:+ t)))
      with true by (symmetry; apply (prefix_append_self lazyBoundary t)).
    exact (f_equal (cons EmptyString)
             (split_from_skip lazyBoundary "!-- lazy -->" t)).
  - assert (P := marker_not_before (String c h) t ltac:(discriminate) Hinc).
    apply includes_cons_false in Hinc as [_ Hh].
    change (String c h +:+ lazyBoundary +:+ t)
      with (String c (h +:+ lazyBoundary +:+ t)) in P |- *.
    cbn [Js.split_from]. rewrite P, (IH Hh). reflexivity.
Qed.

End Splitting.

(** ** ContentAssembler: splicing *)

Section Splicing.

(** The first piece of a split is a prefix of the string, and what
    follows it is nothing or starts with the separator. *)
Lemma split_head (sep s : string) :
  exists h pieces rest,
    Js.split sep s = h :: pieces /\ s = h +:+ rest
    /\ (rest = EmptyString \/ String.prefix sep rest = true).
Proof.
  unfold Js.split. induction s as [|c s (h & pieces & rest & E & -> & Hr)].
  - exists EmptyString, [], EmptyString. auto.
  - cbn [Js.split_from].
    destruct (String.prefix sep (String c (h +:+ rest))) eqn:P.
    + exists EmptyString, (Js.split_from sep (String.length sep - 1) (h +:+ rest)),
        (String c (h +:+ rest)). auto.
    + rewrite E. exists (String c h), pieces, rest. auto.
Qed.

(** If a string starts with [p] followed by its own prefix [h], then what
    follows [h] in it starts with a character of [p]. *)
Lemma shifted_prefix (q : ascii -> bool) (h p x y : string) :
  p <> EmptyString -> string_forallb q p = true ->
  h +:+ x = p +:+ h +:+ y ->
  match x with
  | EmptyString => True
  | String c _ => q c = true
  end.
Proof.
  revert p. induction h as [|a h IH]; intros p Hp Hq E.
  - destruct p as [|b p]; [contradiction|].
    simpl in E. subst x. simpl in Hq. now apply andb_true_iff in Hq.
  - destruct p as [|b p]; [contradiction|].
    simpl in E. injection E as -> E.
    apply (IH (p +:+ String b EmptyString)).
    + destruct p; discriminate.
    + simpl in Hq. apply andb_true_iff in Hq as [Hb Hq].
      rewrite string_forallb_app, Hq. simpl. now rewrite Hb.
    + rewrite E, append_assoc. reflexivity.
Qed.

Lemma splice_changes (S : string) (I : list (gmap string prim)) :
  spliceResponseWithData S (Some I) <> S.
Proof.
  unfold spliceResponseWithData.
  destruct (split_head lazyBoundary S) as (h & pieces & rest & -> & -> & Hr).
  cbn [nth_error Js.ToString]. intros E. symmetry in E.
  rewrite <- append_assoc in E.
  pose proof (shifted_prefix (fun c => negb (Ascii.eqb c "<")) h
                (Js.LF +:+ "    ") rest _ ltac:(discriminate) eq_refl E) as F.
  destruct Hr as [-> | Hr].
  - apply (f_equal String.length) in E.
    rewrite !length_append in E. simpl in E. lia.
  - destruct rest as [|c rest]; [discriminate Hr|].
    unfold lazyBoundary in Hr. apply prefix_cons in Hr as [<- _].
    discriminate F.
Qed.

End Splicing.

(** C2, the claim as stated fails.  The shell ["<p>"] has no marker, and
    splicing an empty list or a one-item list into it does not return
    ["<p>"]; nor does splicing an empty list into a shell that has the
    marker return that shell. *)
Lemma splice_unchanged_fails :
  includes lazyBoundary "<p>" = false
  /\ spliceResponseWithData "<p>" (Some []) <> "<p>"
  /\ spliceResponseWithData "<p>" (Some [milk]) <> "<p>"
  /\ spliceResponseWithData "<a><!-- lazy --><b>" (Some [])
     <> "<a><!-- lazy --><b>".
Proof.
  split; [reflexivity|].
  repeat split; apply String.eqb_neq; vm_compute; reflexivity.
Qed.

(** C2, amended.  [spliceResponseWithData] returns the shell unchanged
    exactly when the data is absent.  With a list, even an empty one, the
    result is never the shell; when the marker does not occur in the
    shell, it is the template's text around the whole shell, the rendered
    list and the word undefined. *)
Theorem splice_unchanged_iff_data_absent (S : string) :
  (forall data, spliceResponseWithData S data = S <-> data = None)
  /\ (forall I, includes lazyBoundary S = false ->
        spliceResponseWithData S (Some I)
        = spliced S (generateTodos I) "undefined").
Proof.
  split.
  - intros [I|]; split; intros H; try reflexivity; try discriminate H.
    now apply splice_changes in H.
  - intros I H. unfold spliceResponseWithData.
    rewrite (split_without_separator _ _ H). reflexivity.
Qed.

Lemma splice_unchanged_iff_data_absent_witness :
  spliceResponseWithData "<p>" (Some [milk])
  = spliced "<p>" (generateTodos [milk]) "undefined".
Proof.
  exact (proj2 (splice_unchanged_iff_data_absent "<p>") [milk] eq_refl).
Defined.

(** C3, the claim as stated fails.  For the shell of the specification's
    example and one todo, the result is not the text before the marker,
    the rendered list and the text after the marker put end to end. *)
Lemma splice_exact_concatenation_fails :
  spliceResponseWithData ("<a>" +:+ lazyBoundary +:+ "<b>") (Some [milk])
  <> "<a>" +:+ generateTodos [milk] +:+ "<b>".
Proof. apply String.eqb_neq; vm_compute; reflexivity. Qed.

(** C3, amended.  When the marker occurs neither in [H] nor in [T], the
    splice of a list [I] into the shell [H], marker, [T] replaces that one
    marker by the rendered list and keeps [H] and [T] verbatim, each of the
    three parts on lines of its own: a line break and four spaces stand
    before [H], before the list and before [T], and a line break and two
    spaces end the result. *)
Theorem splice_at_marker (H T : string) (I : list (gmap string prim)) :
  includes lazyBoundary H = false ->
  includes lazyBoundary T = false ->
  spliceResponseWithData (H +:+ lazyBoundary +:+ T) (Some I)
  = Js.LF +:+ "    " +:+ H +:+
    Js.LF +:+ "    " +:+ generateTodos I +:+
    Js.LF +:+ "    " +:+ T +:+ Js.LF +:+ "  ".
Proof.
  intros HH HT. unfold spliceResponseWithData.
  rewrite (split_at_marker H T HH), (split_without_separator _ T HT).
  reflexivity.
Qed.

Lemma splice_at_marker_witness :
  spliceResponseWithData ("<a>" +:+ lazyBoundary +:+ "<b>") (Some [milk])
  = Js.LF +:+ "    " +:+ "<a>" +:+
    Js.LF +:+ "    " +:+ generateTodos [milk] +:+
    Js.LF +:+ "    " +:+ "<b>" +:+ Js.LF +:+ "  ".
Proof. exact (splice_at_marker "<a>" "<b>" [milk] eq_refl eq_refl). Defined.

(** ** TodoDomain *)

Section Todo.

Lemma completeTodo_completed (v : value) :
  own_properties (completeTodo v) !! "completed" = Some (PBool true).
Proof. unfold completeTodo; simpl. apply lookup_insert_eq. Qed.

Lemma completeTodo_other (v : value) (name : string) :
  name <> "completed" ->
  own_properties (completeTodo v) !! name = own_properties v !! name.
Proof. intros H. unfold completeTodo; simpl. now apply lookup_insert_ne. Qed.

Lemma completeTodo_idempotent (v : value) :
  completeTodo (completeTodo v) = completeTodo v.
Proof. unfold completeTodo; simpl. now rewrite insert_insert_eq. Qed.

Lemma completeTodo_undefined :
  completeTodo VUndefined = VObj {["completed" := PBool true]}.
Proof. unfold completeTodo; simpl. now rewrite insert_empty. Qed.

Lemma alloc_fresh (h : heap) (v : value) : h !! fst (alloc h v) = None.
Proof.
  unfold alloc; simpl. apply not_elem_of_dom. apply is_fresh.
Qed.

End Todo.

(** C8.  Let [e] be the address of a todo object with properties [o].
    [completeTodo] returns the address of a new object: one that was not
    allocated before, so different from [e].  The new object has
    [completed] true and agrees with [o] on every other property; the
    object at [e], and every other object that existed, is as it was.
    Completing the result once more gives an object with the same
    properties. *)
Theorem completeTodo_new_record (h : heap) (e : nat) (o : gmap string prim) :
  h !! e = Some o ->
  let '(r, h1) := completeTodo_ref e h in
  let '(r2, h2) := completeTodo_ref r h1 in
  h !! r = None /\ r <> e
  /\ h1 !! e = Some o
  /\ (forall a, a <> r -> h1 !! a = h !! a)
  /\ (exists o1, h1 !! r = Some o1
        /\ o1 !! "completed" = Some (PBool true)
        /\ forall name, name <> "completed" -> o1 !! name = o !! name)
  /\ deref h2 r2 = deref h1 r
  /\ completeTodo (completeTodo (VObj o)) = completeTodo (VObj o).
Proof.
  intros He.
  destruct (completeTodo_ref e h) as [r h1] eqn:E1.
  destruct (completeTodo_ref r h1) as [r2 h2] eqn:E2.
  unfold completeTodo_ref in E1, E2.
  pose proof (alloc_fresh h (completeTodo (deref h e))) as Hfresh.
  rewrite E1 in Hfresh; simpl in Hfresh.
  assert (Hne : r <> e) by (intros ->; congruence).
  unfold alloc in E1. injection E1 as Hr Hh1.
  assert (Hr1 : h1 !! r = Some (own_properties (completeTodo (deref h e)))).
  { rewrite <- Hh1, Hr. apply lookup_insert_eq. }
  repeat split.
  - exact Hfresh.
  - exact Hne.
  - rewrite <- Hh1, Hr. rewrite lookup_insert_ne by exact Hne. exact He.
  - intros a Ha. rewrite <- Hh1, Hr. now rewrite lookup_insert_ne.
  - eexists. split; [exact Hr1|]. unfold deref. rewrite He. split.
    + apply completeTodo_completed.
    + intros name Hname. now apply completeTodo_other.
  - unfold alloc in E2. injection E2 as Hr2 Hh2.
    unfold deref at 1. rewrite <- Hh2, Hr2, lookup_insert_eq.
    unfold deref at 1 2. rewrite Hr1.
    apply (completeTodo_idempotent (deref h e)).
  - apply completeTodo_idempotent.
Qed.

Lemma completeTodo_new_record_witness :
  let '(r, h1) := completeTodo_ref 0 {[0 := milk]} in
  let '(r2, h2) := completeTodo_ref r h1 in
  ({[0 := milk]} : heap) !! r = None /\ r <> 0
  /\ h1 !! 0 = Some milk
  /\ (forall a, a <> r -> h1 !! a = ({[0 := milk]} : heap) !! a)
  /\ (exists o1, h1 !! r = Some o1
        /\ o1 !! "completed" = Some (PBool true)
        /\ forall name, name <> "completed" -> o1 !! name = milk !! name)
  /\ deref h2 r2 = deref h1 r
  /\ completeTodo (completeTodo (VObj milk)) = completeTodo (VObj milk).
Proof. exact (completeTodo_new_record {[0 := milk]} 0 milk eq_refl). Defined.

(** ** TransactionalStore *)

Section Store.

Variable host : Host.

(** A transaction that wrote nothing leaves the object store as it was,
    whether it completes or aborts. *)
Lemma finish_begin (m : transactionMode) (d : gmap string value) :
  finish host (begin m d) = d.
Proof. unfold finish, begin; simpl. now destruct (commit_fault host). Qed.

Lemma update_throws (k : string) (updater : value -> completion value)
    (d : gmap string value) (err : error) :
  updater (default VUndefined (d !! k)) = Throw err ->
  update host (KStr k) updater d
  = (Rejected (default err (open_fault host)), d).
Proof.
  intros H. unfold update, customStore.
  destruct (open_fault host) as [e|]; [reflexivity|].
  unfold store_get, begin; simpl. rewrite H.
  change (mkTransaction readwrite d d) with (begin readwrite d).
  now rewrite finish_begin.
Qed.

Lemma update_null_key (updater : value -> completion value)
    (d : gmap string value) :
  update host KNull updater d
  = (Rejected (default DataError (open_fault host)), d).
Proof.
  unfold update, customStore.
  destruct (open_fault host) as [e|]; [reflexivity|].
  simpl. now rewrite finish_begin.
Qed.

Lemma update_commits (k : string) (updater : value -> completion value)
    (d : gmap string value) (v : value) :
  open_fault host = None -> commit_fault host = None ->
  updater (default VUndefined (d !! k)) = Normal v ->
  update host (KStr k) updater d = (Fulfilled tt, <[k := v]> d).
Proof.
  intros Ho Hc H. unfold update, customStore. rewrite Ho.
  unfold store_get, begin; simpl. rewrite H. simpl.
  unfold promisifyTransaction, finish. now rewrite Hc.
Qed.

Lemma set_commits (k : string) (v : value) (d : gmap string value) :
  open_fault host = None -> commit_fault host = None ->
  set host (KStr k) v d = (Fulfilled tt, <[k := v]> d).
Proof.
  intros Ho Hc. unfold set, customStore. rewrite Ho. simpl.
  unfold promisifyTransaction, finish. now rewrite Hc.
Qed.

End Store.

(** C1.  When the updater throws on the value stored under [k]
    ([undefined] when there is none), the promise of [update] is rejected,
    with the thrown error itself once the database is open, and the
    object store is left exactly as it was: nothing is written under [k]
    or under any other key. *)
Theorem update_throwing_updater (host : Host) (k : string)
    (updater : value -> completion value) (d : gmap string value)
    (err : error) :
  updater (default VUndefined (d !! k)) = Throw err ->
  (exists reason,
      fst (update host (KStr k) updater d) = Rejected reason
      /\ (open_fault host = None -> reason = err))
  /\ snd (update host (KStr k) updater d) = d.
Proof.
  intros H. rewrite (update_throws host k updater d err H). simpl.
  split; [|reflexivity].
  eexists; split; [reflexivity|]. now intros ->.
Qed.

Lemma update_throwing_updater_witness :
  (exists reason,
      fst (update (healthy []) (KStr "7f3c")
             (fun _ => Throw (Thrown "no")) (db one_todo)) = Rejected reason
      /\ (open_fault (healthy []) = None -> reason = Thrown "no"))
  /\ snd (update (healthy []) (KStr "7f3c")
            (fun _ => Throw (Thrown "no")) (db one_todo)) = db one_todo.
Proof.
  exact (update_throwing_updater (healthy []) "7f3c"
           (fun _ => Throw (Thrown "no")) (db one_todo) (Thrown "no") eq_refl).
Defined.

(** ** RequestRouter *)

Section Router.

Variable host : Host.

Lemma redirect_root : redirect "/" = Fulfilled see_other.
Proof. reflexivity. Qed.

(** The branch the listener takes for each of the three mutation
    paths. *)
Lemma route_create (request : Request) (w : World) :
  pathname request = "/create" ->
  fetch_listener host request w
  = mkHandled (Some (fst (create_chain host request (db w))))
      (Some (redirect "/"))
      (with_db w (snd (create_chain host request (db w)))).
Proof.
  intros H. unfold fetch_listener. rewrite H.
  now destruct (create_chain host request (db w)).
Qed.

Lemma route_delete (request : Request) (w : World) :
  pathname request = "/delete" ->
  fetch_listener host request w
  = let id := searchParams_get (searchParams request) "id" in
    mkHandled (Some (fst (del host id (db w))))
      (Some (redirect "/"))
      (with_db w (snd (del host id (db w)))).
Proof.
  intros H. unfold fetch_listener. rewrite H.
  cbv zeta. now destruct (del host _ (db w)).
Qed.

Lemma route_complete (request : Request) (w : World) :
  pathname request = "/complete" ->
  fetch_listener host request w
  = let id := searchParams_get (searchParams request) "id" in
    let p := update host id (fun todo => Normal (completeTodo todo)) (db w) in
    mkHandled (Some (fst p)) (Some (redirect "/")) (with_db w (snd p)).
Proof.
  intros H. unfold fetch_listener. rewrite H.
  cbv zeta. now destruct (update host _ _ (db w)).
Qed.


End Router.



(** C10.  On a host whose storage works, a request to [/complete] whose
    [id] is a key [k] that the object store does not hold succeeds and
    changes the store: afterwards [k] holds an object whose only property
    is [completed], which is true; it has neither [id] nor [title]. *)
Theorem complete_absent_key_inserts (host : Host) (request : Request)
    (w : World) (k : string) :
  pathname request = "/complete" ->
  searchParams_get (searchParams request) "id" = KStr k ->
  db w !! k = None ->
  open_fault host = None -> commit_fault host = None ->
  let h := fetch_listener host request w in
  update host (KStr k) (fun todo => Normal (completeTodo todo)) (db w)
  = (Fulfilled tt, db (after h))
  /\ waited h = Some (Fulfilled tt)
  /\ db (after h) = <[k := VObj {["completed" := PBool true]}]> (db w)
  /\ db (after h) <> db w
  /\ (forall o, db (after h) !! k = Some (VObj o) ->
        o !! "completed" = Some (PBool true)
        /\ o !! "id" = None /\ o !! "title" = None
        /\ dom o = {["completed"]}).
Proof.
  intros Hp Hid Hk Ho Hc. cbv zeta.
  rewrite (route_complete host request w Hp). cbv zeta. rewrite Hid.
  rewrite (update_commits host k _ (db w) (completeTodo VUndefined) Ho Hc)
    by now rewrite Hk.
  rewrite completeTodo_undefined. simpl.
  repeat split.
  - intros E. apply (f_equal (fun m => m !! k)) in E.
    rewrite lookup_insert_eq, Hk in E. discriminate E.
  - rewrite lookup_insert_eq in H. injection H as <-.
    apply lookup_singleton_eq.
  - rewrite lookup_insert_eq in H. injection H as <-. reflexivity.
  - rewrite lookup_insert_eq in H. injection H as <-. reflexivity.
  - rewrite lookup_insert_eq in H. injection H as <-.
    apply dom_singleton_L.
Qed.

Lemma complete_absent_key_inserts_witness :
  let request := mkRequest "GET" "/complete?id=nobody" "/complete"
                   [("id", "nobody")] EmptyString in
  let h := fetch_listener (healthy []) request one_todo in
  update (healthy []) (KStr "nobody") (fun todo => Normal (completeTodo todo))
    (db one_todo)
  = (Fulfilled tt, db (after h))
  /\ waited h = Some (Fulfilled tt)
  /\ db (after h)
     = <["nobody" := VObj {["completed" := PBool true]}]> (db one_todo)
  /\ db (after h) <> db one_todo
  /\ (forall o, db (after h) !! "nobody" = Some (VObj o) ->
        o !! "completed" = Some (PBool true)
        /\ o !! "id" = None /\ o !! "title" = None
        /\ dom o = {["completed"]}).
Proof.
  exact (complete_absent_key_inserts (healthy [])
           (mkRequest "GET" "/complete?id=nobody" "/complete"
              [("id", "nobody")] EmptyString)
           one_todo "nobody" eq_refl eq_refl eq_refl eq_refl eq_refl).
Defined.

(** C9, the claim as stated fails.  The body of the first request has no
    field at all, so no [title]: its promise chain is rejected with a
    [TypeError] and nothing is persisted.  The body of the second has the
    one field [note]: the todo that is persisted has that field's value as
    its title, which is neither empty nor [undefined]. *)
Lemma create_without_title_fails :
  let bare := mkRequest "POST" "/create" "/create" [] EmptyString in
  let other := mkRequest "POST" "/create" "/create" [] "note=hello" in
  let h := fetch_listener (healthy []) bare blank in
  let h' := fetch_listener (healthy [("note", "hello")]) other blank in
  (Forall (fun field => fst field <> "title")
     (URLSearchParams (healthy []) (text bare))
   /\ waited h = Some (Rejected (TypeError "undefined is not iterable"))
   /\ db (after h) = ∅)
  /\ (Forall (fun field => fst field <> "title")
        (URLSearchParams (healthy [("note", "hello")]) (text other))
      /\ waited h' = Some (Fulfilled tt)
      /\ exists o, db (after h') !! "7f3c" = Some (VObj o)
                   /\ o !! "title" = Some (PStr "hello")).
Proof.
  cbv zeta. split; split.
  - constructor.
  - split; reflexivity.
  - repeat constructor. discriminate.
  - split; [reflexivity|]. eexists. split; reflexivity.
Qed.

(** C9, amended.  A request to [/create] is always answered with the
    redirect.  When its body has no field at all, the promise chain is
    rejected with a [TypeError] and the state is unchanged: nothing is
    persisted.  When it has at least one field, the value of the first
    one, whatever the field is called, is escaped and, on a host whose
    storage works, persisted as the title of a new todo that is not
    completed; the [title] field is not looked up by name. *)
Theorem create_persists_first_field (host : Host) (request : Request)
    (w : World) :
  pathname request = "/create" ->
  let h := fetch_listener host request w in
  responded h = Some (Fulfilled see_other)
  /\ match URLSearchParams host (text request) with
     | [] =>
         waited h = Some (Rejected (TypeError "undefined is not iterable"))
         /\ after h = w
     | (_, v) :: _ =>
         open_fault host = None -> commit_fault host = None ->
         waited h = Some (Fulfilled tt)
         /\ db (after h)
            = <[randomUUID host :=
                  VObj (<["completed" := PBool false]>
                          (<["title" := PStr (escapeHtml v)]>
                             (<["id" := PStr (randomUUID host)]> ∅)))]> (db w)
     end.
Proof.
  intros Hp. cbv zeta. rewrite (route_create host request w Hp).
  split; [reflexivity|].
  unfold create_chain; simpl.
  destruct (URLSearchParams host (text request)) as [|[name v] rest]; simpl.
  - split; [reflexivity | now destruct w].
  - intros Ho Hc. rewrite (set_commits host _ _ (db w) Ho Hc). now split.
Qed.

Lemma create_persists_first_field_witness :
  let other := mkRequest "POST" "/create" "/create" [] "note=a<b" in
  let h := fetch_listener (healthy [("note", "a<b")]) other blank in
  responded h = Some (Fulfilled see_other)
  /\ waited h = Some (Fulfilled tt)
  /\ db (after h)
     = <["7f3c" :=
           VObj (<["completed" := PBool false]>
                   (<["title" := PStr "a&lt;b"]>
                      (<["id" := PStr "7f3c"]> ∅)))]> ∅.
Proof.
  pose proof (create_persists_first_field (healthy [("note", "a<b")])
                (mkRequest "POST" "/create" "/create" [] "note=a<b") blank
                eq_refl) as [Hr Hw].
  exact (conj Hr (Hw eq_refl eq_refl)).
Defined.

(** ** VersionedAssetCache *)

Section Caches.

Implicit Types cs : list (string * gmap (string * string) Response).



Lemma caches_match_None cs (k : string * string) :
  caches_match cs k = None <->
  forall n c, In (n, c) cs -> c !! k = None.
Proof.
  induction cs as [|[n c] cs IH]; simpl.
  - split; [intros _ ? ? [] | reflexivity].
  - destruct (c !! k) as [r'|] eqn:E; split.
    + discriminate.
    + intros H. specialize (H n c (or_introl eq_refl)). congruence.
    + intros H n' c' [[= <- <-] | Hin]; [exact E|].
      now apply (proj1 IH H n' c').
    + intros H. apply IH. intros n' c' Hin. apply (H n' c'). now right.
Qed.



Lemma caches_delete_filter (name : string) cs :
  caches_delete name cs
  = List.filter (fun g => negb (String.eqb (fst g) name)) cs.
Proof.
  induction cs as [|[n c] cs IH]; simpl; [reflexivity|].
  destruct (String.eqb n name); simpl; now rewrite IH.
Qed.

Lemma caches_delete_all (names : list string) cs :
  foldl (fun cs key => caches_delete key cs) cs names
  = List.filter
      (fun g => forallb (fun key => negb (String.eqb (fst g) key)) names) cs.
Proof.
  revert cs. induction names as [|key names IH]; intros cs; simpl.
  - induction cs as [|g cs IHcs]; simpl; [reflexivity | now rewrite <- IHcs].
  - rewrite IH, caches_delete_filter.
    induction cs as [|g cs IHcs]; simpl; [reflexivity|].
    destruct (String.eqb (fst g) key); simpl; [exact IHcs|].
    destruct (forallb _ names); now rewrite IHcs.
Qed.

(** What [cleanCache] does when it is called: only generations named
    after the current version are left. *)
Lemma cleanCache_purges (w : World) :
  storage (snd (cleanCache w))
  = List.filter (fun g => String.eqb (fst g) STATIC_CACHE_NAME) (storage w).
Proof.
  unfold cleanCache; simpl. rewrite caches_delete_all.
  apply filter_ext_in. intros [n c] Hin. simpl.
  destruct (String.eqb n STATIC_CACHE_NAME) eqn:E.
  - apply String.eqb_eq in E. subst n.
    apply forallb_forall. intros key Hkey.
    apply filter_In in Hkey as [_ Hkey].
    now rewrite String.eqb_sym.
  - apply not_true_is_false. intros F.
    rewrite forallb_forall in F.
    assert (Hn : In n (List.filter
              (fun key => negb (String.eqb key STATIC_CACHE_NAME))
              (caches_keys (storage w)))).
    { apply filter_In. split; [|now rewrite E].
      unfold caches_keys. now apply (in_map fst) in Hin. }
    specialize (F n Hn). now rewrite String.eqb_refl in F.
Qed.

End Caches.




(** C6.  The activate listener changes nothing: it hands [waitUntil] the
    function that would call [cleanCache], and nobody calls that
    function.  With the generation of an earlier version and the current
    one in the cache storage, both are still there after activation;
    [cleanCache] itself, had it been called, would have left the current
    one only. *)
Theorem activation_purges_nothing :
  caches_keys (storage (activate_listener two_generations))
  = [ "static-cache_0.0.0"; "static-cache_0.0.1" ]
  /\ (forall w, activate_listener w = w)
  /\ caches_keys (storage (snd (cleanCache two_generations)))
     = [ "static-cache_0.0.1" ].
Proof. repeat split; reflexivity. Qed.

(** * Further properties of the worker *)

(** ** TransactionalStore: reads, writes and their composition *)

Section StoreOperations.

Variable host : Host.

Lemma get_reads (k : string) (d : gmap string value) :
  open_fault host = None ->
  get host (KStr k) d = (Fulfilled (default VUndefined (d !! k)), d).
Proof.
  intros Ho. unfold get, customStore. rewrite Ho. simpl.
  change (mkTransaction readonly d d) with (begin readonly d).
  now rewrite finish_begin.
Qed.

Lemma del_commits (k : string) (d : gmap string value) :
  open_fault host = None -> commit_fault host = None ->
  del host (KStr k) d = (Fulfilled tt, delete k d).
Proof.
  intros Ho Hc. unfold del, customStore. rewrite Ho. simpl.
  unfold promisifyTransaction, finish. now rewrite Hc.
Qed.

(** The outcome of a write: fulfilled with the write in the store, or
    rejected with the store as it was. *)
Lemma set_outcome (key : jskey) (v : value) (d : gmap string value) :
  (exists k, key = KStr k /\ set host key v d = (Fulfilled tt, <[k := v]> d))
  \/ (exists e, set host key v d = (Rejected e, d)).
Proof.
  unfold set, customStore.
  destruct (open_fault host) as [e|]; [right; now exists e|].
  destruct key as [|k]; simpl.
  - right. exists DataError. now rewrite finish_begin.
  - unfold promisifyTransaction, finish; simpl.
    destruct (commit_fault host) as [e|]; [right; now exists e|].
    left. now exists k.
Qed.

Lemma del_outcome (key : jskey) (d : gmap string value) :
  (exists k, key = KStr k /\ del host key d = (Fulfilled tt, delete k d))
  \/ (exists e, del host key d = (Rejected e, d)).
Proof.
  unfold del, customStore.
  destruct (open_fault host) as [e|]; [right; now exists e|].
  destruct key as [|k]; simpl.
  - right. exists DataError. now rewrite finish_begin.
  - unfold promisifyTransaction, finish; simpl.
    destruct (commit_fault host) as [e|]; [right; now exists e|].
    left. now exists k.
Qed.

Lemma update_outcome (key : jskey) (updater : value -> completion value)
    (d : gmap string value) :
  (exists k v, key = KStr k
      /\ updater (default VUndefined (d !! k)) = Normal v
      /\ update host key updater d = (Fulfilled tt, <[k := v]> d))
  \/ (exists e, update host key updater d = (Rejected e, d)).
Proof.
  destruct key as [|k].
  - right. eexists. apply update_null_key.
  - destruct (updater (default VUndefined (d !! k))) as [v|err] eqn:E.
    + unfold update, customStore.
      destruct (open_fault host) as [e|]; [right; now exists e|].
      unfold store_get, begin; simpl. rewrite E. simpl.
      unfold promisifyTransaction, finish; simpl.
      destruct (commit_fault host) as [e|]; [right; now exists e|].
      left. exists k, v. auto.
    + right. eexists. exact (update_throws host k updater d err E).
Qed.

End StoreOperations.

(** X1.  On a host whose storage works, a value written with [set] is
    what [get] reads back under the same key, every other key reads as
    before, and the read changes nothing. *)
Theorem set_then_get (host : Host) (k : string) (v : value)
    (d : gmap string value) :
  open_fault host = None -> commit_fault host = None ->
  let d1 := snd (set host (KStr k) v d) in
  fst (set host (KStr k) v d) = Fulfilled tt
  /\ get host (KStr k) d1 = (Fulfilled v, d1)
  /\ forall k', k' <> k -> get host (KStr k') d1
                          = (fst (get host (KStr k') d), d1).
Proof.
  intros Ho Hc. cbv zeta. rewrite (set_commits host k v d Ho Hc). simpl.
  split; [reflexivity|]. split.
  - rewrite (get_reads host k _ Ho). now rewrite lookup_insert_eq.
  - intros k' Hk. rewrite !(get_reads host k' _ Ho). simpl.
    now rewrite lookup_insert_ne.
Qed.

Lemma set_then_get_witness :
  let d1 := snd (set (healthy []) (KStr "a") (VObj milk) (db one_todo)) in
  fst (set (healthy []) (KStr "a") (VObj milk) (db one_todo)) = Fulfilled tt
  /\ get (healthy []) (KStr "a") d1 = (Fulfilled (VObj milk), d1)
  /\ forall k', k' <> "a" ->
       get (healthy []) (KStr k') d1
       = (fst (get (healthy []) (KStr k') (db one_todo)), d1).
Proof.
  exact (set_then_get (healthy []) "a" (VObj milk) (db one_todo)
           eq_refl eq_refl).
Defined.

(** X2.  On a host whose storage works, [del] succeeds whether or not the
    key is stored: afterwards the key reads as [undefined], every other
    key reads as before, a key that was not stored leaves the store as it
    was, and deleting a second time changes nothing more. *)
Theorem del_removes_only_the_key (host : Host) (k : string)
    (d : gmap string value) :
  open_fault host = None -> commit_fault host = None ->
  let d1 := snd (del host (KStr k) d) in
  fst (del host (KStr k) d) = Fulfilled tt
  /\ fst (get host (KStr k) d1) = Fulfilled VUndefined
  /\ (forall k', k' <> k ->
        fst (get host (KStr k') d1) = fst (get host (KStr k') d))
  /\ (d !! k = None -> d1 = d)
  /\ del host (KStr k) d1 = (Fulfilled tt, d1).
Proof.
  intros Ho Hc. cbv zeta. rewrite (del_commits host k d Ho Hc). simpl.
  split; [reflexivity|]. split; [|split; [|split]].
  - rewrite (get_reads host k _ Ho). simpl. now rewrite lookup_delete_eq.
  - intros k' Hk. rewrite !(get_reads host k' _ Ho). simpl.
    now rewrite lookup_delete_ne.
  - apply delete_id.
  - rewrite (del_commits host k _ Ho Hc). now rewrite delete_delete_eq.
Qed.

Lemma del_removes_only_the_key_witness :
  let d1 := snd (del (healthy []) (KStr "7f3c") (db one_todo)) in
  fst (del (healthy []) (KStr "7f3c") (db one_todo)) = Fulfilled tt
  /\ fst (get (healthy []) (KStr "7f3c") d1) = Fulfilled VUndefined
  /\ (forall k', k' <> "7f3c" ->
        fst (get (healthy []) (KStr k') d1)
        = fst (get (healthy []) (KStr k') (db one_todo)))
  /\ (db one_todo !! "7f3c" = None -> d1 = db one_todo)
  /\ del (healthy []) (KStr "7f3c") d1 = (Fulfilled tt, d1).
Proof.
  exact (del_removes_only_the_key (healthy []) "7f3c" (db one_todo)
           eq_refl eq_refl).
Defined.

(** X3.  On every host, with working storage or not, and for every key,
    valid or not, a write is all or nothing: [set], [del] and [update]
    either fulfil their promise with exactly their one write in the store,
    or reject it with the store exactly as it was.  A fulfilled promise
    means the write is in the store; a rejected one means nothing was
    written. *)
Theorem writes_are_all_or_nothing (host : Host) (key : jskey) (v : value)
    (updater : value -> completion value) (d : gmap string value) :
  ((exists k, key = KStr k
       /\ set host key v d = (Fulfilled tt, <[k := v]> d))
   \/ (exists e, set host key v d = (Rejected e, d)))
  /\ ((exists k, key = KStr k
         /\ del host key d = (Fulfilled tt, delete k d))
      \/ (exists e, del host key d = (Rejected e, d)))
  /\ ((exists k v', key = KStr k
         /\ updater (default VUndefined (d !! k)) = Normal v'
         /\ update host key updater d = (Fulfilled tt, <[k := v']> d))
      \/ (exists e, update host key updater d = (Rejected e, d))).
Proof.
  split; [apply set_outcome|]. split; [apply del_outcome|].
  apply update_outcome.
Qed.

(** X4.  [update] is a read followed by a write of the updater's result:
    on every host, if [get] reads [result] under [k] and the updater maps
    it to [v], then [update] does what [set] of [v] under [k] does; in
    particular no key other than [k] changes. *)
Theorem update_is_get_then_set (host : Host) (k : string)
    (updater : value -> completion value) (d : gmap string value)
    (result v : value) :
  get host (KStr k) d = (Fulfilled result, d) ->
  updater result = Normal v ->
  update host (KStr k) updater d = set host (KStr k) v d
  /\ forall k', k' <> k ->
       snd (update host (KStr k) updater d) !! k' = d !! k'.
Proof.
  intros G U.
  assert (Ho : open_fault host = None).
  { unfold get, customStore in G.
    destruct (open_fault host); [discriminate G | reflexivity]. }
  rewrite (get_reads host k d Ho) in G. injection G as <-.
  assert (E : update host (KStr k) updater d = set host (KStr k) v d).
  { unfold update, set, customStore. rewrite Ho.
    unfold store_get, begin; simpl. now rewrite U. }
  split; [exact E|]. intros k' Hk. rewrite E.
  destruct (set_outcome host (KStr k) v d) as [(k0 & [= <-] & ->) | (e & ->)];
    simpl; [now rewrite lookup_insert_ne | reflexivity].
Qed.

Lemma update_is_get_then_set_witness :
  update (out_of_quota []) (KStr "7f3c")
    (fun todo => Normal (completeTodo todo)) (db one_todo)
  = set (out_of_quota []) (KStr "7f3c") (completeTodo (VObj milk)) (db one_todo)
  /\ forall k', k' <> "7f3c" ->
       snd (update (out_of_quota []) (KStr "7f3c")
              (fun todo => Normal (completeTodo todo)) (db one_todo)) !! k'
       = db one_todo !! k'.
Proof.
  exact (update_is_get_then_set (out_of_quota []) "7f3c"
           (fun todo => Normal (completeTodo todo)) (db one_todo)
           (VObj milk) (completeTodo (VObj milk)) eq_refl eq_refl).
Defined.

(** ** TransactionalStore: enumeration *)

Section Enumeration.

Lemma insert_by_key_In (e x : string * value) (l : list (string * value)) :
  In x (insert_by_key e l) <-> x = e \/ In x l.
Proof.
  induction l as [|e' l IH]; simpl.
  - intuition.
  - destruct (String.leb (fst e) (fst e')); simpl; [intuition|].
    rewrite IH. intuition.
Qed.

Lemma insert_by_key_length (e : string * value) (l : list (string * value)) :
  length (insert_by_key e l) = S (length l).
Proof.
  induction l as [|e' l IH]; simpl; [reflexivity|].
  destruct (String.leb (fst e) (fst e')); simpl; [reflexivity | now rewrite IH].
Qed.

Lemma insert_by_key_sorted (e : string * value) (l : list (string * value)) :
  Sorted key_le l -> Sorted key_le (insert_by_key e l).
Proof.
  induction 1 as [|e' l Hs IH Hd]; simpl.
  - repeat constructor.
  - destruct (String.leb (fst e) (fst e')) eqn:E.
    + constructor; [now constructor|]. now constructor.
    + constructor; [exact IH|].
      assert (Hle : key_le e' e).
      { unfold key_le. destruct (String.leb_total (fst e) (fst e')); congruence. }
      destruct Hd as [|b l Hb]; simpl.
      * now constructor.
      * destruct (String.leb (fst e) (fst b)); now constructor.
Qed.

Lemma foldr_insert_In (x : string * value) (l : list (string * value)) :
  In x (foldr insert_by_key [] l) <-> In x l.
Proof.
  induction l as [|e l IH]; simpl; [reflexivity|].
  rewrite insert_by_key_In, IH. intuition.
Qed.

Lemma in_key_order_In (m : gmap string value) (k : string) (v : value) :
  In (k, v) (in_key_order m) <-> m !! k = Some v.
Proof.
  unfold in_key_order. rewrite foldr_insert_In, <- list_elem_of_In.
  apply elem_of_map_to_list.
Qed.

Lemma in_key_order_length (m : gmap string value) :
  length (in_key_order m) = size m.
Proof.
  rewrite <- (length_map_to_list m). unfold in_key_order.
  induction (map_to_list m) as [|e l IH]; simpl; [reflexivity|].
  now rewrite insert_by_key_length, IH.
Qed.

Lemma in_key_order_sorted (m : gmap string value) :
  Sorted key_le (in_key_order m).
Proof.
  unfold in_key_order.
  induction (map_to_list m) as [|e l IH]; simpl; [constructor|].
  now apply insert_by_key_sorted.
Qed.

(** Zipping the keys with the values by position gives the pairs back. *)
Lemma zip_by_position (l : list (string * value)) :
  imap (fun idx key => (key, default VUndefined (map snd l !! idx))) (map fst l)
  = l.
Proof.
  apply list_eq. intros i.
  rewrite list_lookup_imap.
  change (map fst l) with (fst <$> l). change (map snd l) with (snd <$> l).
  rewrite !list_lookup_fmap.
  destruct (l !! i) as [[k v]|]; reflexivity.
Qed.

Lemma entries_reads (host : Host) (d : gmap string value) :
  open_fault host = None ->
  entries host d = (Fulfilled (in_key_order d), d).
Proof.
  intros Ho. unfold entries, customStore. rewrite Ho. simpl.
  rewrite zip_by_position.
  change (mkTransaction readonly d d) with (begin readonly d).
  now rewrite finish_begin.
Qed.

Lemma entries_read_only (host : Host) (d : gmap string value) :
  snd (entries host d) = d.
Proof.
  unfold entries, customStore.
  destruct (open_fault host); simpl; [reflexivity|].
  change (mkTransaction readonly d d) with (begin readonly d).
  now rewrite finish_begin.
Qed.

End Enumeration.

(** X5.  Once the database is open, [entries] is fulfilled with exactly
    the stored pairs: a pair is listed if and only if the store holds that
    value under that key, there are as many pairs as stored keys, they come
    in ascending key order, and each key is paired with its own value (the
    zip of the two enumerations by position loses nothing).  The store is
    left as it was. *)
Theorem entries_lists_the_store (host : Host) (d : gmap string value) :
  open_fault host = None ->
  exists l,
    entries host d = (Fulfilled l, d)
    /\ (forall k v, In (k, v) l <-> d !! k = Some v)
    /\ length l = size d
    /\ Sorted key_le l.
Proof.
  intros Ho. exists (in_key_order d).
  split; [now apply entries_reads|].
  split; [apply in_key_order_In|].
  split; [apply in_key_order_length | apply in_key_order_sorted].
Qed.

Lemma entries_lists_the_store_witness :
  exists l,
    entries (out_of_quota []) (db one_todo) = (Fulfilled l, db one_todo)
    /\ (forall k v, In (k, v) l <-> db one_todo !! k = Some v)
    /\ length l = size (db one_todo)
    /\ Sorted key_le l.
Proof. exact (entries_lists_the_store (out_of_quota []) (db one_todo) eq_refl). Defined.

(** ** RequestRouter: what the handlers do to the state *)

Section RouterState.

Variable host : Host.

Lemma with_db_same (w : World) : with_db w (db w) = w.
Proof. now destruct w. Qed.

Lemma create_stores (request : Request) (w : World) (name t : string)
    (rest : list (string * string)) :
  pathname request = "/create" ->
  URLSearchParams host (text request) = (name, t) :: rest ->
  open_fault host = None -> commit_fault host = None ->
  fetch_listener host request w
  = mkHandled (Some (Fulfilled tt)) (Some (redirect "/"))
      (with_db w
         (<[randomUUID host :=
              snd (createTodo (randomUUID host) (PStr (escapeHtml t)))]> (db w))).
Proof.
  intros Hp Hf Ho Hc. rewrite (route_create host request w Hp).
  unfold create_chain. rewrite Hf. simpl.
  now rewrite (set_commits host _ _ (db w) Ho Hc).
Qed.

Lemma respondWithSpliced_state (w : World) :
  snd (respondWithSpliced host w) = w.
Proof.
  unfold respondWithSpliced.
  destruct (caches_match (storage w) (GET "/")) as [res|]; [|reflexivity].
  pose proof (entries_read_only host (db w)) as E.
  destruct (entries host (db w)) as [[l|e] d]; simpl in E; subst d;
    [destruct (todo_items (map snd l)); [destruct (new_Response _ _ _ _)|]|];
    simpl; apply with_db_same.
Qed.

Lemma respondWithCache_db (request : Request) (w : World) :
  db (snd (respondWithCache host request w)) = db w.
Proof.
  unfold respondWithCache, fetch.
  destruct (caches_match (storage w) (identity request)); [reflexivity|].
  destruct (network host (identity request)); [|reflexivity].
  simpl. now destruct (cache_put _ _ _ _).
Qed.

End RouterState.

(** X6.  The round trip of a creation.  On a host whose storage works, a
    request to [/create] whose body's first field has the value [t] is
    followed by an enumeration that lists the new todo, with the escaped
    [t] as its title and not completed, under the identifier the host
    drew, and lists every pair stored under another key as before.  On an
    empty store the new todo is the only entry. *)
Theorem create_then_entries (host : Host) (request : Request) (w : World)
    (name t : string) (rest : list (string * string)) :
  pathname request = "/create" ->
  URLSearchParams host (text request) = (name, t) :: rest ->
  open_fault host = None -> commit_fault host = None ->
  let w1 := after (fetch_listener host request w) in
  let todo :=
    VObj (<["completed" := PBool false]>
            (<["title" := PStr (escapeHtml t)]>
               (<["id" := PStr (randomUUID host)]> ∅))) in
  exists l,
    entries host (db w1) = (Fulfilled l, db w1)
    /\ In (randomUUID host, todo) l
    /\ (forall k v, k <> randomUUID host ->
          (In (k, v) l <-> db w !! k = Some v))
    /\ (db w = ∅ -> l = [(randomUUID host, todo)]).
Proof.
  intros Hp Hf Ho Hc. cbv zeta.
  rewrite (create_stores host request w name t rest Hp Hf Ho Hc). simpl.
  eexists. split; [apply (entries_reads host _ Ho)|].
  split; [|split].
  - apply in_key_order_In, lookup_insert_eq.
  - intros k v Hk. rewrite in_key_order_In. now rewrite lookup_insert_ne.
  - intros ->. unfold in_key_order.
    rewrite insert_empty, map_to_list_singleton. reflexivity.
Qed.

Lemma create_then_entries_witness :
  let request := mkRequest "POST" "/create" "/create" [] "title=Buy+milk" in
  let host := healthy [("title", "Buy milk")] in
  let w1 := after (fetch_listener host request blank) in
  let todo :=
    VObj (<["completed" := PBool false]>
            (<["title" := PStr (escapeHtml "Buy milk")]>
               (<["id" := PStr (randomUUID host)]> ∅))) in
  exists l,
    entries host (db w1) = (Fulfilled l, db w1)
    /\ In (randomUUID host, todo) l
    /\ (forall k v, k <> randomUUID host ->
          (In (k, v) l <-> db blank !! k = Some v))
    /\ (db blank = ∅ -> l = [(randomUUID host, todo)]).
Proof.
  exact (create_then_entries (healthy [("title", "Buy milk")])
           (mkRequest "POST" "/create" "/create" [] "title=Buy+milk") blank
           "title" "Buy milk" [] eq_refl eq_refl eq_refl eq_refl).
Defined.

(** X7.  Creating a todo and then completing it.  On a host whose storage
    works, after a request to [/create] and a request to [/complete] with
    the identifier the host drew, the store holds under that identifier a
    todo with the same [id] and the same escaped title, now completed;
    every other key is as before the two requests. *)
Theorem create_then_complete (host : Host) (create complete : Request)
    (w : World) (name t : string) (rest : list (string * string)) :
  pathname create = "/create" ->
  URLSearchParams host (text create) = (name, t) :: rest ->
  pathname complete = "/complete" ->
  searchParams_get (searchParams complete) "id" = KStr (randomUUID host) ->
  open_fault host = None -> commit_fault host = None ->
  let w1 := after (fetch_listener host create w) in
  let h2 := fetch_listener host complete w1 in
  waited h2 = Some (Fulfilled tt)
  /\ db (after h2) !! randomUUID host
     = Some (VObj (<["completed" := PBool true]>
                     (<["title" := PStr (escapeHtml t)]>
                        (<["id" := PStr (randomUUID host)]> ∅))))
  /\ forall k, k <> randomUUID host -> db (after h2) !! k = db w !! k.
Proof.
  intros Hp Hf Hp2 Hid Ho Hc. cbv zeta.
  rewrite (create_stores host create w name t rest Hp Hf Ho Hc). simpl.
  rewrite (route_complete host complete _ Hp2). cbv zeta. rewrite Hid. simpl.
  erewrite (update_commits host (randomUUID host) _ _ _ Ho Hc);
    [|rewrite lookup_insert_eq; reflexivity].
  simpl. split; [reflexivity|]. split.
  - rewrite lookup_insert_eq. unfold completeTodo; simpl.
    now rewrite insert_insert_eq.
  - intros k Hk. now rewrite !lookup_insert_ne by congruence.
Qed.

Lemma create_then_complete_witness :
  let create := mkRequest "POST" "/create" "/create" [] "title=Buy+milk" in
  let complete := mkRequest "GET" "/complete?id=7f3c" "/complete"
                    [("id", "7f3c")] EmptyString in
  let host := healthy [("title", "Buy milk")] in
  let w1 := after (fetch_listener host create blank) in
  let h2 := fetch_listener host complete w1 in
  waited h2 = Some (Fulfilled tt)
  /\ db (after h2) !! randomUUID host
     = Some (VObj (<["completed" := PBool true]>
                     (<["title" := PStr (escapeHtml "Buy milk")]>
                        (<["id" := PStr (randomUUID host)]> ∅))))
  /\ forall k, k <> randomUUID host -> db (after h2) !! k = db blank !! k.
Proof.
  exact (create_then_complete (healthy [("title", "Buy milk")])
           (mkRequest "POST" "/create" "/create" [] "title=Buy+milk")
           (mkRequest "GET" "/complete?id=7f3c" "/complete"
              [("id", "7f3c")] EmptyString)
           blank "title" "Buy milk" [] eq_refl eq_refl eq_refl eq_refl
           eq_refl eq_refl).
Defined.

Section RouterPaths.

Variable host : Host.

Lemma todo_items_objects (values : list value) :
  (forall v, In v values -> v <> VUndefined) ->
  exists items, todo_items values = Normal items /\ map VObj items = values.
Proof.
  induction values as [|v values IH]; intros H.
  - now exists [].
  - destruct IH as (items & E & M); [intros v' Hv'; apply H; now right|].
    destruct v as [|o]; [now destruct (H VUndefined (or_introl eq_refl))|].
    exists (o :: items). simpl. rewrite E, M. auto.
Qed.

Lemma route_root (request : Request) (w : World) :
  pathname request = "/" \/ pathname request = "/index.html" ->
  fetch_listener host request w
  = mkHandled None (Some (fst (respondWithSpliced host w)))
      (snd (respondWithSpliced host w)).
Proof.
  intros H. unfold fetch_listener.
  replace (String.eqb (pathname request) "/"
           || String.eqb (pathname request) "/index.html") with true
    by (destruct H as [-> | ->]; reflexivity).
  now destruct (respondWithSpliced host w).
Qed.

End RouterPaths.

(** X8.  A request to [/delete] or [/complete] that carries no [id]
    parameter hands IndexedDB the key [null]: the storage promise is
    rejected, the state is exactly as before, and the answer is the
    redirect all the same. *)
Theorem mutation_without_id (host : Host) (request : Request) (w : World) :
  pathname request = "/delete" \/ pathname request = "/complete" ->
  searchParams_get (searchParams request) "id" = KNull ->
  let h := fetch_listener host request w in
  waited h = Some (Rejected (default DataError (open_fault host)))
  /\ after h = w
  /\ responded h = Some (Fulfilled see_other).
Proof.
  intros [Hp | Hp] Hid; cbv zeta.
  - rewrite (route_delete host request w Hp). cbv zeta. rewrite Hid.
    destruct (del_outcome host KNull (db w)) as [(k & [=] & _) | (e & E)].
    unfold del, customStore in *.
    destruct (open_fault host); simpl in *;
      rewrite ?finish_begin; simpl; rewrite ?with_db_same; auto.
  - rewrite (route_complete host request w Hp). cbv zeta. rewrite Hid.
    rewrite update_null_key. simpl. rewrite with_db_same. auto.
Qed.

Lemma mutation_without_id_witness :
  let request := mkRequest "GET" "/delete" "/delete" [] EmptyString in
  let h := fetch_listener (healthy []) request one_todo in
  waited h = Some (Rejected (default DataError (open_fault (healthy []))))
  /\ after h = one_todo
  /\ responded h = Some (Fulfilled see_other).
Proof.
  exact (mutation_without_id (healthy [])
           (mkRequest "GET" "/delete" "/delete" [] EmptyString) one_todo
           (or_introl eq_refl) eq_refl).
Defined.

(** X9.  Only the three mutation paths can change the object store: for a
    request to any other path the store after the listener has run is the
    store before, on every host.  A request whose path is none of the
    seven the listener knows is not handled at all: no response, nothing
    to wait for, no change of state. *)
Theorem only_mutations_change_the_store (host : Host) (request : Request)
    (w : World) :
  ~ In (pathname request) mutation_paths ->
  db (after (fetch_listener host request w)) = db w
  /\ (~ In (pathname request) assets ->
      fetch_listener host request w = mkHandled None None w).
Proof.
  intros Hm. unfold mutation_paths in Hm. simpl in Hm.
  unfold fetch_listener, assets. cbn [existsb].
  destruct (String.eqb (pathname request) "/") eqn:E1;
    [|destruct (String.eqb (pathname request) "/index.html") eqn:E2]; simpl.
  1,2: pose proof (respondWithSpliced_state host w) as S;
       destruct (respondWithSpliced host w) as [r w1]; simpl in *; subst w1;
       split; [reflexivity|]; intros Ha; exfalso; apply Ha; simpl;
       first [apply String.eqb_eq in E1 | apply String.eqb_eq in E2]; auto.
  destruct (String.eqb (pathname request) "/create") eqn:E3;
    [apply String.eqb_eq in E3; exfalso; apply Hm; rewrite E3; tauto|].
  destruct (String.eqb (pathname request) "/delete") eqn:E4;
    [apply String.eqb_eq in E4; exfalso; apply Hm; rewrite E4; tauto|].
  destruct (String.eqb (pathname request) "/complete") eqn:E5;
    [apply String.eqb_eq in E5; exfalso; apply Hm; rewrite E5; tauto|].
  destruct (String.eqb (pathname request) "/main.js") eqn:E6; simpl.
  - pose proof (respondWithCache_db host request w) as D.
    destruct (respondWithCache host request w) as [r w1]; simpl in *.
    split; [exact D|]. intros Ha; exfalso; apply Ha.
    apply String.eqb_eq in E6. auto.
  - auto.
Qed.

Lemma only_mutations_change_the_store_witness :
  let request := mkRequest "GET" "/about" "/about" [] EmptyString in
  db (after (fetch_listener online request two_generations))
  = db two_generations
  /\ fetch_listener online request two_generations
     = mkHandled None None two_generations.
Proof.
  pose proof (only_mutations_change_the_store online
                (mkRequest "GET" "/about" "/about" [] EmptyString)
                two_generations) as H.
  destruct H as [Hd Hn].
  - simpl. intros [H | [H | [H | []]]]; discriminate H.
  - split; [exact Hd|]. apply Hn.
    simpl. intros [H | [H | [H | []]]]; discriminate H.
Defined.

(** X10.  The listener goes to the network, and writes to the cache
    storage, only for requests to [/main.js]: for every other path,
    the page and the mutations included, the cache storage and the list of
    fetched requests are as before on every host. *)
Theorem only_the_script_reaches_the_network (host : Host) (request : Request)
    (w : World) :
  pathname request <> "/main.js" ->
  storage (after (fetch_listener host request w)) = storage w
  /\ fetched (after (fetch_listener host request w)) = fetched w.
Proof.
  intros Hs. unfold fetch_listener, assets. cbn [existsb].
  destruct (String.eqb (pathname request) "/") eqn:E1;
    [|destruct (String.eqb (pathname request) "/index.html") eqn:E2]; simpl.
  1,2: pose proof (respondWithSpliced_state host w) as S;
       destruct (respondWithSpliced host w) as [r w1]; simpl in *; subst w1;
       now split.
  destruct (String.eqb (pathname request) "/create");
    [destruct (create_chain host request (db w)); now split|].
  destruct (String.eqb (pathname request) "/delete");
    [destruct (del host _ (db w)); now split|].
  destruct (String.eqb (pathname request) "/complete");
    [destruct (update host _ _ (db w)); now split|].
  destruct (String.eqb (pathname request) "/main.js") eqn:E6; simpl.
  - apply String.eqb_eq in E6. contradiction.
  - now split.
Qed.

Lemma only_the_script_reaches_the_network_witness :
  let request := mkRequest "GET" "/index.html" "/index.html" [] EmptyString in
  storage (after (fetch_listener online request two_generations))
  = storage two_generations
  /\ fetched (after (fetch_listener online request two_generations))
     = fetched two_generations.
Proof.
  apply (only_the_script_reaches_the_network online
           (mkRequest "GET" "/index.html" "/index.html" [] EmptyString)
           two_generations).
  discriminate.
Defined.

(** X11.  The escaping is applied to whatever [/create] stores: on every
    host, if the storage promise of a request to [/create] is fulfilled,
    then the store holds, under the identifier the host drew, a todo whose
    [id] is that identifier, which is not completed, and whose title is a
    string with none of the characters [<], [>], double quote, single
    quote, [/], backquote and [=] in it. *)
Theorem created_title_is_escaped (host : Host) (request : Request)
    (w : World) :
  pathname request = "/create" ->
  waited (fetch_listener host request w) = Some (Fulfilled tt) ->
  exists o title,
    db (after (fetch_listener host request w)) !! randomUUID host
    = Some (VObj o)
    /\ o !! "id" = Some (PStr (randomUUID host))
    /\ o !! "completed" = Some (PBool false)
    /\ o !! "title" = Some (PStr title)
    /\ no_raw_markup title = true.
Proof.
  intros Hp. rewrite (route_create host request w Hp). simpl.
  unfold create_chain.
  destruct (URLSearchParams host (text request)) as [|[name v] rest]; simpl;
    [discriminate|].
  destruct (set_outcome host (KStr (randomUUID host))
              (snd (createTodo (randomUUID host) (PStr (escapeHtml v)))) (db w))
    as [(k & [= <-] & E) | (e & E)];
    simpl in E; rewrite E; simpl; [intros _ | discriminate].
  eexists _, (escapeHtml v). rewrite lookup_insert_eq.
  split; [reflexivity|]. repeat split.
  apply escapeHtml_no_raw_markup.
Qed.

Lemma created_title_is_escaped_witness :
  let request := mkRequest "POST" "/create" "/create" [] "title=a<b" in
  let host := healthy [("title", "a<b")] in
  exists o title,
    db (after (fetch_listener host request blank)) !! randomUUID host
    = Some (VObj o)
    /\ o !! "id" = Some (PStr (randomUUID host))
    /\ o !! "completed" = Some (PBool false)
    /\ o !! "title" = Some (PStr title)
    /\ no_raw_markup title = true.
Proof.
  exact (created_title_is_escaped (healthy [("title", "a<b")])
           (mkRequest "POST" "/create" "/create" [] "title=a<b") blank
           eq_refl eq_refl).
Defined.

(** ** RequestRouter: the page *)

(** X12.  The page.  For a request to [/] or to [/index.html], when the
    cache storage holds under the root URL a response whose body has the
    marker once, between [H] and [T], whose status lies within 200 to 599
    and is not one of responses without a body, and whose status text is
    a reason phrase, and when the database opens and no stored value is
    [undefined], the listener answers with the status and status text of
    the cached response, with its headers, to which [Content-Type:
    text/plain;charset=UTF-8] is added when they have no [Content-Type],
    and with the body that has the list of all stored todos, in key
    order, in the marker's place.  Nothing is fetched and the state is
    unchanged. *)
Theorem page_is_spliced_from_cache (host : Host) (request : Request)
    (w : World) (res : Response) (H T : string) :
  pathname request = "/" \/ pathname request = "/index.html" ->
  caches_match (storage w) (GET "/") = Some res ->
  body res = H +:+ lazyBoundary +:+ T ->
  includes lazyBoundary H = false -> includes lazyBoundary T = false ->
  200 <= status res <= 599 ->
  null_body_status (status res) = false ->
  reason_phrase (statusText res) = true ->
  open_fault host = None ->
  (forall k, db w !! k <> Some VUndefined) ->
  exists items,
    map VObj items = map snd (in_key_order (db w))
    /\ fetch_listener host request w
       = mkHandled None
           (Some (Fulfilled
                    (mkResponse (status res) (statusText res)
                       (if has_header "content-type" (headers res)
                        then headers res
                        else (headers res ++ [text_plain])%list)
                       (spliced H (generateTodos items) T))))
           w.
Proof.
  intros Hp Hm Hb HH HT [Hlo Hhi] Hnb Hrp Ho Hv.
  destruct (todo_items_objects (map snd (in_key_order (db w))))
    as (items & Ei & Mi).
  { intros v Hin ->. apply in_map_iff in Hin as ([k v] & Hs & Hin).
    simpl in Hs. subst v. apply in_key_order_In in Hin. now apply (Hv k). }
  exists items. split; [exact Mi|].
  rewrite (route_root host request w Hp).
  unfold respondWithSpliced. rewrite Hm.
  rewrite (entries_reads host (db w) Ho), Ei.
  unfold new_Response.
  apply Nat.leb_le in Hlo. apply Nat.leb_le in Hhi.
  rewrite Hlo, Hhi, Hrp, Hnb. simpl.
  rewrite with_db_same. do 4 f_equal.
  rewrite Hb. unfold spliceResponseWithData.
  rewrite (split_at_marker H T HH), (split_without_separator _ T HT).
  reflexivity.
Qed.

Lemma page_is_spliced_from_cache_witness :
  let request := mkRequest "GET" "/index.html" "/index.html" [] EmptyString in
  (exists items,
      map VObj items = map snd (in_key_order (db installed))
      /\ fetch_listener (out_of_quota []) request installed
         = mkHandled None
             (Some (Fulfilled
                      (mkResponse 200 "OK" [("Content-Type", "text/html")]
                         (spliced "<main>" (generateTodos items) "</main>"))))
             installed)
  /\ (exists items,
        map VObj items = map snd (in_key_order (db bare_install))
        /\ fetch_listener (out_of_quota []) request bare_install
           = mkHandled None
               (Some (Fulfilled
                        (mkResponse 200 EmptyString
                           [("content-type", "text/plain;charset=UTF-8")]
                           (spliced "<main>" (generateTodos items) "</main>"))))
               bare_install).
Proof.
  split.
  - apply (page_is_spliced_from_cache (out_of_quota [])
             (mkRequest "GET" "/index.html" "/index.html" [] EmptyString)
             installed shell "<main>" "</main>");
      try reflexivity.
    + now right.
    + simpl; lia.
    + intros k. destruct (decide (k = "7f3c")) as [->|Hk].
      * discriminate.
      * unfold installed; simpl. rewrite lookup_singleton_ne by congruence.
        discriminate.
  - apply (page_is_spliced_from_cache (out_of_quota [])
             (mkRequest "GET" "/index.html" "/index.html" [] EmptyString)
             bare_install bare_shell "<main>" "</main>");
      try reflexivity.
    + now right.
    + simpl; lia.
    + intros k. unfold bare_install; simpl. rewrite lookup_empty. discriminate.
Defined.

(** X13.  The page has no fallback.  For a request to [/] or to
    [/index.html], when no cache holds a response under the root URL, the
    listener answers with a rejected promise; it does not go to the
    network and leaves the state as it was. *)
Theorem page_needs_the_cached_shell (host : Host) (request : Request)
    (w : World) :
  pathname request = "/" \/ pathname request = "/index.html" ->
  (forall n c, In (n, c) (storage w) -> c !! GET "/" = None) ->
  exists e,
    fetch_listener host request w = mkHandled None (Some (Rejected e)) w.
Proof.
  intros Hp Habs. apply caches_match_None in Habs.
  rewrite (route_root host request w Hp).
  unfold respondWithSpliced. rewrite Habs. simpl. eauto.
Qed.

Lemma page_needs_the_cached_shell_witness :
  exists e,
    fetch_listener online
      (mkRequest "GET" "/" "/" [] EmptyString) two_generations
    = mkHandled None (Some (Rejected e)) two_generations.
Proof.
  apply (page_needs_the_cached_shell online
           (mkRequest "GET" "/" "/" [] EmptyString) two_generations).
  - now left.
  - intros n c [[= <- <-] | [[= <- <-] | []]]; reflexivity.
Defined.

(** ** VersionedAssetCache: purging, misses and installation *)

Section CacheOperations.

Implicit Types cs : list (string * gmap (string * string) Response).

Lemma generation_filter_current (name : string) cs :
  generation name (List.filter (fun g => String.eqb (fst g) name) cs)
  = generation name cs.
Proof.
  induction cs as [|[n c] cs IH]; simpl; [reflexivity|].
  destruct (String.eqb n name) eqn:E; simpl; rewrite ?E; [reflexivity|].
  exact IH.
Qed.

Lemma filter_twice {A : Type} (p : A -> bool) (l : list A) :
  List.filter p (List.filter p l) = List.filter p l.
Proof.
  induction l as [|x l IH]; simpl; [reflexivity|].
  destruct (p x) eqn:E; simpl; rewrite ?E, IH; reflexivity.
Qed.








End CacheOperations.

(** X14.  When it is called, [cleanCache] leaves exactly the generations
    named after the current version, with their contents, and deletes all
    others; it touches neither the object store nor the network, and
    calling it again changes nothing more. *)
Theorem cleanCache_keeps_only_current (w : World) :
  let w1 := snd (cleanCache w) in
  fst (cleanCache w) = Fulfilled tt
  /\ (forall n c, In (n, c) (storage w1)
                 <-> n = STATIC_CACHE_NAME /\ In (n, c) (storage w))
  /\ generation STATIC_CACHE_NAME (storage w1)
     = generation STATIC_CACHE_NAME (storage w)
  /\ db w1 = db w /\ fetched w1 = fetched w
  /\ cleanCache w1 = (Fulfilled tt, w1).
Proof.
  cbv zeta. pose proof (cleanCache_purges w) as P.
  split; [reflexivity|]. split; [|split; [|split; [|split]]].
  - intros n c. rewrite P, filter_In. simpl.
    rewrite String.eqb_eq. tauto.
  - rewrite P. apply generation_filter_current.
  - reflexivity.
  - reflexivity.
  - pose proof (cleanCache_purges (snd (cleanCache w))) as P2.
    rewrite P, filter_twice, <- P in P2.
    destruct (cleanCache (snd (cleanCache w))) as [p w2] eqn:E.
    assert (p = Fulfilled tt) as -> by (unfold cleanCache in E; congruence).
    f_equal. simpl in P2.
    unfold cleanCache in E. injection E as <-.
    unfold with_storage in *. simpl in *. rewrite P2.
    now destruct w.
Qed.

(** X15.  A miss while the network is down: when no generation holds the
    request and [fetch] rejects, [respondWithCache] is rejected after that
    one fetch, and the cache storage is as before: nothing is stored, not
    even an empty generation. *)
Theorem miss_while_offline (host : Host) (request : Request) (w : World) :
  (forall n c, In (n, c) (storage w) -> c !! identity request = None) ->
  network host (identity request) = None ->
  let w1 := snd (respondWithCache host request w) in
  fst (respondWithCache host request w) = Rejected NetworkError
  /\ storage w1 = storage w
  /\ fetched w1 = (fetched w ++ [identity request])%list
  /\ db w1 = db w.
Proof.
  intros Habs Hnet. apply caches_match_None in Habs.
  unfold respondWithCache, fetch. rewrite Habs, Hnet. simpl. auto.
Qed.

Lemma miss_while_offline_witness :
  let w1 := snd (respondWithCache (healthy []) main_js blank) in
  fst (respondWithCache (healthy []) main_js blank) = Rejected NetworkError
  /\ storage w1 = storage blank
  /\ fetched w1 = (fetched blank ++ [identity main_js])%list
  /\ db w1 = db blank.
Proof.
  exact (miss_while_offline (healthy []) main_js blank
           (fun n c (H : In (n, c) []) => match H with end) eq_refl).
Defined.



Section Installation.

Variable host : Host.

(** The three fetches of the manifest, spelled out. *)
Lemma cacheStatic_unfolded (w : World) :
  cacheStatic host w
  = let cs := caches_open STATIC_CACHE_NAME (storage w) in
    let log := (fetched w ++ [GET "/"; GET "/index.html"; GET "/main.js"])%list in
    match network host (GET "/"), network host (GET "/index.html"),
          network host (GET "/main.js") with
    | Some r1, Some r2, Some r3 =>
        if addAll_accepts r1 && addAll_accepts r2 && addAll_accepts r3
        then (Fulfilled tt,
              mkWorld (db w)
                (cache_store STATIC_CACHE_NAME (GET "/main.js") r3
                   (cache_store STATIC_CACHE_NAME (GET "/index.html") r2
                      (cache_store STATIC_CACHE_NAME (GET "/") r1 cs)))
                log (claimed w))
        else (Rejected (TypeError "Failed to fetch"),
              mkWorld (db w) cs log (claimed w))
    | _, _, _ =>
        (Rejected (TypeError "Failed to fetch"),
         mkWorld (db w) cs log (claimed w))
    end.
Proof.
  unfold cacheStatic, addAll, assets, fetch_all, fetch, with_storage. simpl.
  destruct (network host (GET "/")) as [r1|];
    destruct (network host (GET "/index.html")) as [r2|];
    destruct (network host (GET "/main.js")) as [r3|]; simpl;
    rewrite <- ?app_assoc; simpl;
    try reflexivity;
    try (destruct (addAll_accepts r1); simpl; try reflexivity);
    try (destruct (addAll_accepts r2); simpl; try reflexivity);
    try (destruct (addAll_accepts r3); simpl; reflexivity).
Qed.

Lemma install_is_init (w : World) :
  install_listener host w = snd (init host w)
  /\ init host w = cacheStatic host w.
Proof.
  unfold install_listener, init, waitUntil.
  destruct (cacheStatic host w) as [[[]|e] w1]; auto.
Qed.

Lemma addAll_accepts_iff (r : Response) :
  addAll_accepts r = true
  <-> ok r = true /\ status r <> 206 /\ vary_star (headers r) = false.
Proof.
  unfold addAll_accepts.
  rewrite !andb_true_iff, !negb_true_iff, Nat.eqb_neq. tauto.
Qed.

End Installation.



(** X18.  Installation is all or nothing.  When the network fails, or
    answers with a status that is not ok, for one path of the manifest,
    [init] is rejected and no response is stored: the cache storage is the
    earlier one with, at most, the empty current generation that
    [caches.open] created.  All three paths were fetched all the same. *)
Theorem install_is_all_or_nothing (host : Host) (w : World) (u : string) :
  In u assets ->
  network host (GET u) = None
  \/ (exists r, network host (GET u) = Some r /\ ok r = false) ->
  let w1 := install_listener host w in
  (exists e, init host w = (Rejected e, w1))
  /\ storage w1 = caches_open STATIC_CACHE_NAME (storage w)
  /\ fetched w1 = (fetched w ++ map GET assets)%list
  /\ db w1 = db w.
Proof.
  intros Hu Hfail. cbv zeta.
  destruct (install_is_init host w) as [-> ->].
  rewrite cacheStatic_unfolded. cbv zeta.
  destruct (network host (GET "/")) as [r1|] eqn:N1;
    destruct (network host (GET "/index.html")) as [r2|] eqn:N2;
    destruct (network host (GET "/main.js")) as [r3|] eqn:N3;
    try (simpl; eauto 6; fail).
  destruct (addAll_accepts r1 && addAll_accepts r2 && addAll_accepts r3) eqn:O;
    [exfalso | simpl; eauto 6].
  apply andb_true_iff in O as [O O3]. apply andb_true_iff in O as [O1 O2].
  apply addAll_accepts_iff in O1 as [O1 _], O2 as [O2 _], O3 as [O3 _].
  destruct Hu as [<- | [<- | [<- | []]]];
    destruct Hfail as [F | (r & F & Fo)]; congruence.
Qed.

Lemma install_is_all_or_nothing_witness :
  let w1 := install_listener (healthy []) one_todo in
  (exists e, init (healthy []) one_todo = (Rejected e, w1))
  /\ storage w1 = caches_open STATIC_CACHE_NAME (storage one_todo)
  /\ fetched w1 = (fetched one_todo ++ map GET assets)%list
  /\ db w1 = db one_todo.
Proof.
  exact (install_is_all_or_nothing (healthy []) one_todo "/main.js"
           (or_intror (or_intror (or_introl eq_refl))) (or_introl eq_refl)).
Defined.

(** ** ContentAssembler: markers and list items *)

Section Rendering.

Lemma includes_here (p y : string) : includes p (p +:+ y) = true.
Proof.
  destruct p as [|a p]; [now destruct y|].
  pose proof (prefix_append_self (String a p) y) as P.
  change (String a p +:+ y) with (String a (p +:+ y)) in P |- *.
  cbn [includes]. now rewrite P.
Qed.

Lemma includes_append_r (p x y : string) :
  includes p y = true -> includes p (x +:+ y) = true.
Proof.
  intros H. induction x as [|c x IH]; [exact H|].
  change (String c x +:+ y) with (String c (x +:+ y)).
  cbn [includes]. rewrite IH. apply orb_true_r.
Qed.

(** A stretch without the first character of the pattern holds no start
    of an occurrence. *)
Lemma includes_skip (a : ascii) (p s y : string) :
  string_forallb (fun c => negb (Ascii.eqb c a)) s = true ->
  includes (String a p) (s +:+ y) = includes (String a p) y.
Proof.
  induction s as [|c s IH]; [reflexivity|].
  simpl string_forallb. intros H. apply andb_true_iff in H as [Hc Hs].
  change (String c s +:+ y) with (String c (s +:+ y)).
  cbn [includes]. rewrite (IH Hs).
  replace (String.prefix (String a p) (String c (s +:+ y))) with false;
    [reflexivity|].
  symmetry. apply not_true_is_false. intros P.
  apply prefix_cons in P as [-> _].
  now rewrite Ascii.eqb_refl in Hc.
Qed.

Lemma prefix_empty (s : string) : String.prefix EmptyString s = true.
Proof. now destruct s. Qed.

Lemma occurrences_skip (a : ascii) (p s y : string) :
  string_forallb (fun c => negb (Ascii.eqb c a)) s = true ->
  occurrences (String a p) (s +:+ y) = occurrences (String a p) y.
Proof.
  induction s as [|c s IH]; [reflexivity|].
  simpl string_forallb. intros H. apply andb_true_iff in H as [Hc Hs].
  change (String c s +:+ y) with (String c (s +:+ y)).
  cbn [occurrences]. rewrite (IH Hs).
  replace (String.prefix (String a p) (String c (s +:+ y))) with false;
    [reflexivity|].
  symmetry. apply not_true_is_false. intros P.
  apply prefix_cons in P as [-> _].
  now rewrite Ascii.eqb_refl in Hc.
Qed.

Lemma string_forallb_weaken (p q : ascii -> bool) (s : string) :
  (forall c, p c = true -> q c = true) ->
  string_forallb p s = true -> string_forallb q s = true.
Proof.
  intros Hpq. induction s as [|c s IH]; [reflexivity|].
  simpl. intros H. apply andb_true_iff in H as [Hc Hs].
  now rewrite (Hpq c Hc), (IH Hs).
Qed.

Lemma escaped_is_slash_free (t : string) : slash_free (escapeHtml t) = true.
Proof.
  unfold slash_free.
  refine (string_forallb_weaken _ _ _ _ (escapeHtml_no_raw_markup t)).
  intros c. unfold Js.in_class. simpl.
  destruct (Ascii.eqb c "/"); [|reflexivity].
  now rewrite !orb_true_r.
Qed.

End Rendering.

(** X19.  Only the first two pieces of the shell are used.  When the
    shell has a second marker, everything from that marker on is dropped:
    the result is the one for the shell that ends before the second
    marker. *)
Theorem splice_drops_after_second_marker (H T U : string)
    (I : list (gmap string prim)) :
  includes lazyBoundary H = false ->
  includes lazyBoundary T = false ->
  spliceResponseWithData
    (H +:+ lazyBoundary +:+ T +:+ lazyBoundary +:+ U) (Some I)
  = spliced H (generateTodos I) T
  /\ spliceResponseWithData
       (H +:+ lazyBoundary +:+ T +:+ lazyBoundary +:+ U) (Some I)
     = spliceResponseWithData (H +:+ lazyBoundary +:+ T) (Some I).
Proof.
  intros HH HT. unfold spliceResponseWithData.
  rewrite (split_at_marker H (T +:+ lazyBoundary +:+ U) HH).
  rewrite (split_at_marker T U HT).
  rewrite (split_at_marker H T HH), (split_without_separator _ T HT).
  destruct (split_head lazyBoundary U) as (h & pieces & rest & -> & _).
  split; reflexivity.
Qed.

Lemma splice_drops_after_second_marker_witness :
  spliceResponseWithData
    ("<a>" +:+ lazyBoundary +:+ "<b>" +:+ lazyBoundary +:+ "<footer>")
    (Some [milk])
  = spliced "<a>" (generateTodos [milk]) "<b>"
  /\ spliceResponseWithData
       ("<a>" +:+ lazyBoundary +:+ "<b>" +:+ lazyBoundary +:+ "<footer>")
       (Some [milk])
     = spliceResponseWithData ("<a>" +:+ lazyBoundary +:+ "<b>") (Some [milk]).
Proof.
  exact (splice_drops_after_second_marker "<a>" "<b>" "<footer>" [milk]
           eq_refl eq_refl).
Defined.

(** X20.  The actions of a list item.  For an identifier without a slash
    and a title that went through [escapeHtml], the markup of the item has
    exactly one link to [/delete], and exactly one link to [/complete]
    when the todo is not completed and none when it is: whatever the user
    typed as the title adds no link of either kind. *)
Theorem list_item_actions (id : prim) (t : string) (completed : prim) :
  slash_free (prim_to_string id) = true ->
  occurrences "/complete?id=" (list_item id (PStr (escapeHtml t)) completed)
  = (if truthy completed then 0 else 1)
  /\ occurrences "/delete?id=" (list_item id (PStr (escapeHtml t)) completed)
     = 1.
Proof.
  intros Hid. pose proof (escaped_is_slash_free t) as Ht.
  unfold slash_free in Hid, Ht.
  unfold list_item, Js.LF, Js.DQ. simpl prim_to_string.
  destruct (truthy completed); split; rewrite !append_assoc; simpl;
    repeat (rewrite ?(occurrences_skip _ _ _ _ Ht),
                    ?(occurrences_skip _ _ _ _ Hid), ?prefix_empty; simpl);
    reflexivity.
Qed.

Lemma list_item_actions_witness :
  occurrences "/complete?id="
    (list_item (PStr "7f3c") (PStr (escapeHtml "a/complete?id=b")) (PBool false))
  = 1
  /\ occurrences "/delete?id="
       (list_item (PStr "7f3c") (PStr (escapeHtml "a/complete?id=b"))
          (PBool false))
     = 1.
Proof.
  exact (list_item_actions (PStr "7f3c") "a/complete?id=b" (PBool false) eq_refl).
Defined.

Section RenderedList.

Lemma prefix_append_l (p x y : string) :
  String.prefix p x = true -> String.prefix p (x +:+ y) = true.
Proof.
  revert x. induction p as [|a p IH]; intros x H; [now destruct (x +:+ y)|].
  destruct x as [|b x]; [discriminate H|].
  change (String b x +:+ y) with (String b (x +:+ y)).
  apply prefix_cons in H as [-> H]. apply prefix_cons. auto.
Qed.

Lemma includes_append_l (p x y : string) :
  includes p x = true -> includes p (x +:+ y) = true.
Proof.
  induction x as [|c x IH].
  - simpl. rewrite orb_false_r. intros H.
    destruct p; [now destruct y | discriminate H].
  - change (String c x +:+ y) with (String c (x +:+ y)).
    cbn [includes]. intros H. apply orb_true_iff in H as [H | H].
    + apply (prefix_append_l _ _ y) in H.
      change (String c x +:+ y) with (String c (x +:+ y)) in H.
      now rewrite H.
    + rewrite (IH H). apply orb_true_r.
Qed.

Lemma includes_join (p : string) (parts : list string) (part : string) :
  In part parts -> includes p part = true -> includes p (Js.join parts) = true.
Proof.
  induction parts as [|q parts IH]; intros Hin Hp; [contradiction|].
  simpl. destruct Hin as [-> | Hin].
  - now apply includes_append_l.
  - apply includes_append_r. now apply IH.
Qed.

(** Walk along the appended pieces up to the one the pattern starts
    with. *)
Ltac walk_to_link :=
  repeat lazymatch goal with
    | |- includes (?p +:+ _) (?p +:+ _) = true => fail
    | |- includes _ (_ +:+ _) = true => apply includes_append_r
    end.

Lemma list_item_delete_link (id title completed : prim) :
  includes ("/delete?id=" +:+ prim_to_string id +:+ Js.DQ)
    (list_item id title completed) = true.
Proof.
  unfold list_item. destruct (truthy completed); rewrite !append_assoc.
  - walk_to_link.
    rewrite <- (append_assoc (prim_to_string id) Js.DQ).
    rewrite <- (append_assoc "/delete?id=" (prim_to_string id +:+ Js.DQ)).
    apply includes_here.
  - walk_to_link.
    rewrite <- (append_assoc (prim_to_string id) Js.DQ).
    rewrite <- (append_assoc "/delete?id=" (prim_to_string id +:+ Js.DQ)).
    apply includes_here.
Qed.

Lemma list_item_complete_link (id title completed : prim) :
  truthy completed = false ->
  includes ("/complete?id=" +:+ prim_to_string id +:+ Js.DQ)
    (list_item id title completed) = true.
Proof.
  intros Hc. unfold list_item. rewrite Hc, !append_assoc.
  walk_to_link.
  rewrite <- (append_assoc (prim_to_string id) Js.DQ).
  rewrite <- (append_assoc "/complete?id=" (prim_to_string id +:+ Js.DQ)).
  apply includes_here.
Qed.

End RenderedList.

(** X21.  No todo is left out of the rendered list.  For every object of
    the data, the markup of [generateTodos] has a delete link that carries
    the object's [id]; for every object that is not completed it also has
    a complete link that carries the [id]. *)
Theorem generateTodos_links_every_todo (data : list (gmap string prim))
    (o : gmap string prim) :
  In o data ->
  includes ("/delete?id=" +:+ prim_to_string (prop o "id") +:+ Js.DQ)
    (generateTodos data) = true
  /\ (truthy (prop o "completed") = false ->
      includes ("/complete?id=" +:+ prim_to_string (prop o "id") +:+ Js.DQ)
        (generateTodos data) = true).
Proof.
  intros Hin.
  assert (Hitem : In (list_item (prop o "id") (prop o "title") (prop o "completed"))
            (map (fun o => list_item (prop o "id") (prop o "title")
                             (prop o "completed")) data))
    by (apply in_map_iff; eauto).
  unfold generateTodos. split; [|intros Hc];
    do 8 apply includes_append_r; apply includes_append_l;
    apply (includes_join _ _ _ Hitem).
  - apply list_item_delete_link.
  - now apply list_item_complete_link.
Qed.

Lemma generateTodos_links_every_todo_witness :
  includes ("/delete?id=" +:+ prim_to_string (prop milk "id") +:+ Js.DQ)
    (generateTodos [milk]) = true
  /\ (truthy (prop milk "completed") = false ->
      includes ("/complete?id=" +:+ prim_to_string (prop milk "id") +:+ Js.DQ)
        (generateTodos [milk]) = true).
Proof.
  exact (generateTodos_links_every_todo [milk] milk (or_introl eq_refl)).
Defined.

(** ** The store handle *)

Section StoreHandle.

Lemma defaultGetStore_set (g : globals) (handle : nat) :
  store g = Some handle -> defaultGetStore g = (handle, g).
Proof. unfold defaultGetStore. now intros ->. Qed.

Lemma defaultGetStore_calls_set (n : nat) (g : globals) (handle : nat) :
  store g = Some handle ->
  defaultGetStore_calls n g = (repeat handle n, g).
Proof.
  intros H. induction n as [|n IH]; [reflexivity|].
  simpl. now rewrite (defaultGetStore_set g handle H), IH.
Qed.

End StoreHandle.

(** X22.  The store handle is made once.  However often
    [defaultGetStore] is called in a row, every call returns the same
    handle and the database is opened at most once: not at all when the
    variable [store] is already set, once, by the first call, when it is
    not.  Afterwards the variable holds that handle. *)
Theorem defaultGetStore_opens_once (n : nat) (g : globals) :
  let '(handles, g1) := defaultGetStore_calls (S n) g in
  let handle := default (opened g) (store g) in
  handles = repeat handle (S n)
  /\ store g1 = Some handle
  /\ opened g1 = opened g + match store g with Some _ => 0 | None => 1 end.
Proof.
  destruct (store g) as [handle|] eqn:E.
  - rewrite (defaultGetStore_calls_set (S n) g handle E). simpl.
    rewrite E. repeat split. lia.
  - cbn [defaultGetStore_calls]. unfold defaultGetStore, createStore.
    rewrite E. simpl.
    rewrite (defaultGetStore_calls_set n
               (mkGlobals (Some (opened g)) (S (opened g))) (opened g) eq_refl).
    simpl.
    repeat split. lia.
Qed.
